(** * gocovparser: parsing and aggregation of Go coverage profiles

    A shallow embedding of [gocovparser/core.go]: the identity pattern
    [parseLineRegex], [Parse], [GroupCoverage] and
    [GetTotalCoverageBreakdown], followed by the properties of the
    specification that are established or refuted on it. *)

From Stdlib Require Import ZArith Lia Bool Ascii String List.
From Stdlib Require Import Floats.SpecFloat.
From stdpp Require Import gmap strings list fin_maps.

Local Open Scope Z_scope.

(** ** Go's [int]

    [int] is a 64-bit two's complement integer on the platforms the
    package is built for; [+] and [-] wrap around silently.  An [int] is
    a [Z] of the signed range and every operation renormalises. *)
Module GoInt.

Definition half : Z := 2 ^ 63.
Definition modulus : Z := 2 ^ 64.

Definition in_range (z : Z) : Prop := - half <= z < half.

Definition wrap (z : Z) : Z := (z + half) mod modulus - half.

Definition add (a b : Z) : Z := wrap (a + b).
Definition sub (a b : Z) : Z := wrap (a - b).

End GoInt.

(** ** Go's [float64]

    IEEE 754 binary64 values, with the operations of the Standard
    Library's executable specification: [float64(n)] rounds the integer
    to the nearest representable value (ties to even), [/] is the
    correctly rounded quotient. *)
Module GoFloat.

Definition float64 : Type := spec_float.

Definition prec : Z := 53.
Definition emax : Z := 1024.

Definition zero : float64 := S754_zero false.
Definition one : float64 := S754_finite false (2 ^ 52) (-52).

Definition of_int (n : Z) : float64 := binary_normalize prec emax n 0 false.

Definition div (x y : float64) : float64 := SFdiv prec emax x y.

Definition leb (x y : float64) : bool := SFleb x y.

(** [x] lies in the closed interval from [0.0] to [1.0]. *)
Definition in_unit (x : float64) : bool := leb zero x && leb x one.

End GoFloat.

Abbreviation float64 := GoFloat.float64.

(** ** Data model *)

(** [cover.ProfileBlock] of golang.org/x/tools/cover. *)
Record ProfileBlock : Type := mkBlock {
  StartLine : Z;
  StartCol : Z;
  EndLine : Z;
  EndCol : Z;
  NumStmt : Z;
  Count : Z
}.

(** [cover.Profile], as far as [Parse] reads it. *)
Record Profile : Type := mkProfile {
  ProfileFileName : string;
  ProfileBlocks : list ProfileBlock
}.

Record Coverage : Type := mkCoverage {
  FileName : string;
  Host : string;
  Owner : string;
  Repo : string;
  Path : string;
  Blocks : list ProfileBlock
}.

Record ParseGroup : Type := mkGroup {
  Name : string;
  KeyFunc : string -> string
}.

Record OverallCoverageBreakdown : Type := mkBreakdown {
  TotalCoveredLines : Z;
  TotalLines : Z;
  PercentByLines : float64;
  TotalCoveredStatements : Z;
  TotalStatements : Z;
  PercentByStatements : float64
}.

(** The sentinel error of the package and what [errors.Wrapf] attaches to
    it: the format string and its arguments. *)
Inductive sentinel : Type := ErrInvalidCoverageData.

Record error : Type := Wrapf {
  cause : sentinel;
  format : string;
  args : list string
}.

(** ** GetTotalCoverageBreakdown *)

(** [b.Count > 0]. *)
Definition is_covered (b : ProfileBlock) : bool := 0 <? Count b.

(** The body of the inner loop, lines 127 to 140. *)
Definition breakdown_block (r : OverallCoverageBreakdown) (b : ProfileBlock)
  : OverallCoverageBreakdown :=
  let linesInBlock := GoInt.add (GoInt.sub (EndLine b) (StartLine b)) 1 in
  {| TotalCoveredLines :=
       if is_covered b then GoInt.add (TotalCoveredLines r) linesInBlock
       else TotalCoveredLines r;
     TotalLines := GoInt.add (TotalLines r) linesInBlock;
     PercentByLines := PercentByLines r;
     TotalCoveredStatements :=
       if is_covered b then GoInt.add (TotalCoveredStatements r) (NumStmt b)
       else TotalCoveredStatements r;
     TotalStatements := GoInt.add (TotalStatements r) (NumStmt b);
     PercentByStatements := PercentByStatements r |}.

Definition breakdown_item (r : OverallCoverageBreakdown) (cov : Coverage)
  : OverallCoverageBreakdown :=
  fold_left breakdown_block (Blocks cov) r.

(** Lines 145 to 151. *)
Definition breakdown_percentages (r : OverallCoverageBreakdown)
  : OverallCoverageBreakdown :=
  let r1 :=
    if negb (TotalLines r =? 0) then
      {| TotalCoveredLines := TotalCoveredLines r;
         TotalLines := TotalLines r;
         PercentByLines :=
           GoFloat.div (GoFloat.of_int (TotalCoveredLines r))
                       (GoFloat.of_int (TotalLines r));
         TotalCoveredStatements := TotalCoveredStatements r;
         TotalStatements := TotalStatements r;
         PercentByStatements := PercentByStatements r |}
    else r in
  if negb (TotalStatements r1 =? 0) then
    {| TotalCoveredLines := TotalCoveredLines r1;
       TotalLines := TotalLines r1;
       PercentByLines := PercentByLines r1;
       TotalCoveredStatements := TotalCoveredStatements r1;
       TotalStatements := TotalStatements r1;
       PercentByStatements :=
         GoFloat.div (GoFloat.of_int (TotalCoveredStatements r1))
                     (GoFloat.of_int (TotalStatements r1)) |}
  else r1.

Definition breakdown_init : OverallCoverageBreakdown :=
  {| TotalCoveredLines := 0;
     TotalLines := 0;
     PercentByLines := GoFloat.zero;
     TotalCoveredStatements := 0;
     TotalStatements := 0;
     PercentByStatements := GoFloat.zero |}.

Definition GetTotalCoverageBreakdown (items : list Coverage)
  : OverallCoverageBreakdown * option error :=
  (breakdown_percentages (fold_left breakdown_item items breakdown_init), None).

(** ** GroupCoverage *)

(** The three maps of the function body. *)
Record group_state : Type := mkState {
  result : gmap string (gmap string float64);
  statements : gmap string (gmap string Z);
  covered : gmap string (gmap string Z)
}.

(** [if _, found := m[name]; !found { m[name] = make(...) }]. *)
Definition ensure {V : Type} (name : string) (m : gmap string (gmap string V))
  : gmap string (gmap string V) :=
  match m !! name with
  | Some _ => m
  | None => <[name := ∅]> m
  end.

(** [m[name]], the inner map ([ensure] has run, so it is there). *)
Definition inner {V : Type} (m : gmap string (gmap string V)) (name : string)
  : gmap string V :=
  default ∅ (m !! name).

(** [m[name][key]]: a missing key reads as the zero value. *)
Definition read (m : gmap string (gmap string Z)) (name key : string) : Z :=
  default 0 (inner m name !! key).

(** [m[name][key] += v]. *)
Definition add_to (m : gmap string (gmap string Z)) (name key : string) (v : Z)
  : gmap string (gmap string Z) :=
  <[name := <[key := GoInt.add (read m name key) v]> (inner m name)]> m.

(** Lines 89 to 93. *)
Definition group_block (name key : string) (st : group_state) (b : ProfileBlock)
  : group_state :=
  let statements' := add_to (statements st) name key (NumStmt b) in
  let covered' :=
    if is_covered b then add_to (covered st) name key (NumStmt b)
    else covered st in
  {| result := result st; statements := statements'; covered := covered' |}.

(** Lines 86 to 94. *)
Definition group_item (group : ParseGroup) (st : group_state) (cov : Coverage)
  : group_state :=
  let key := KeyFunc group (FileName cov) in
  fold_left (group_block (Name group) key) (Blocks cov) st.

(** Lines 98 to 107, for one key of [statements[group.Name]]. *)
Definition ratio_step (st : group_state) (name : string)
    (key : string) (stmts : Z) (res : gmap string (gmap string float64))
  : gmap string (gmap string float64) :=
  let cov := read (covered st) name key in
  if stmts =? 0 then <[name := <[key := GoFloat.zero]> (inner res name)]> res
  else
    <[name := <[key := GoFloat.div (GoFloat.of_int cov) (GoFloat.of_int stmts)]>
                (inner res name)]> res.

(** Lines 97 to 108: the range over the keys of [statements[group.Name]]. *)
Definition group_ratios (name : string) (st : group_state) : group_state :=
  {| result :=
       map_fold (ratio_step st name) (result st) (inner (statements st) name);
     statements := statements st;
     covered := covered st |}.

(** The body of the loop over [groups], lines 73 to 108. *)
Definition group_step (items : list Coverage) (st : group_state) (group : ParseGroup)
  : group_state :=
  let st1 :=
    {| result := ensure (Name group) (result st);
       statements := ensure (Name group) (statements st);
       covered := ensure (Name group) (covered st) |} in
  let st2 := fold_left (group_item group) items st1 in
  group_ratios (Name group) st2.

Definition group_init : group_state :=
  {| result := ∅; statements := ∅; covered := ∅ |}.

Definition GroupCoverage (items : list Coverage) (groups : list ParseGroup)
  : gmap string (gmap string float64) * option error :=
  (result (fold_left (group_step items) groups group_init), None).

(** ** Regular expressions

    The fragment of Go's [regexp] syntax that [parseLineRegex] is written
    in, with the leftmost-first (preference-ordered) matching of the
    package.  Matching works on bytes: the two character sets of the
    pattern exclude one ASCII character each, so every byte of a
    multi-byte rune belongs to both and the submatches are the same as on
    runes. *)
Module Regexp.

Inductive regex : Type :=
| Lit (c : ascii)                  (* a literal character *)
| StarSet (p : ascii -> bool)      (* [set]*, greedy *)
| Cat (r1 r2 : regex)              (* r1 r2 *)
| Opt (r : regex)                  (* (?:r)?, greedy *)
| Cap (i : nat) (r : regex).       (* capture group number i *)

(** What a match starting at [s] and leaving [s'] has consumed. *)
Definition consumed (s s' : string) : string :=
  substring 0 (String.length s - String.length s') s.

Section Run.
Context {R : Type}.

(** Longest repetition first, then one character less, and so on. *)
Fixpoint star_set (p : ascii -> bool) (s : string) (k : string -> option R)
  : option R :=
  match s with
  | String c s' =>
      if p c then
        match star_set p s' k with
        | Some r => Some r
        | None => k s
        end
      else k s
  | EmptyString => k s
  end.

(** [run r s caps k] matches [r] at the head of [s] and hands the rest of
    the input and the submatches to [k]; the alternatives are tried in
    the order of preference and the first that lets [k] succeed wins. *)
Fixpoint run (r : regex) (s : string) (caps : list string)
    (k : string -> list string -> option R) : option R :=
  match r with
  | Lit c =>
      match s with
      | String c' s' => if Ascii.eqb c c' then k s' caps else None
      | EmptyString => None
      end
  | StarSet p => star_set p s (fun s' => k s' caps)
  | Cat r1 r2 => run r1 s caps (fun s' caps' => run r2 s' caps' k)
  | Opt r1 =>
      match run r1 s caps k with
      | Some x => Some x
      | None => k s caps
      end
  | Cap i r1 => run r1 s caps (fun s' caps' => k s' (<[i := consumed s s']> caps'))
  end.

End Run.

(** [NumSubexp]. *)
Fixpoint num_subexp (r : regex) : nat :=
  match r with
  | Lit _ | StarSet _ => 0
  | Cat r1 r2 => num_subexp r1 + num_subexp r2
  | Opt r1 => num_subexp r1
  | Cap _ r1 => S (num_subexp r1)
  end.

(** A match of the whole expression that starts at the head of [s]. *)
Definition match_here (re : regex) (s : string) : option (list string) :=
  run (Cap 0 re) s (replicate (S (num_subexp re)) EmptyString)
      (fun _ caps => Some caps).

(** [FindStringSubmatch]: the leftmost match, as the slice of the text of
    the match and of its groups (a group that took no part reads as the
    empty string); the nil slice when nothing matches. *)
Fixpoint FindStringSubmatch (re : regex) (s : string) : list string :=
  match match_here re s with
  | Some caps => caps
  | None =>
      match s with
      | String _ s' => FindStringSubmatch re s'
      | EmptyString => []
      end
  end.

End Regexp.

Import Regexp.

(** ** Parse *)

Definition hostPosition : nat := 1.
Definition ownerPosition : nat := 2.
Definition repoPosition : nat := 3.
Definition pathPosition : nat := 4.

Definition slash : ascii := "/"%char.
Definition newline : ascii := "010"%char.

(** [[^\/]]. *)
Definition not_slash (c : ascii) : bool := negb (Ascii.eqb c slash).

(** [.]: every character but the line feed. *)
Definition any_char (c : ascii) : bool := negb (Ascii.eqb c newline).

Definition parseLineRegex : regex :=
  Cat (Cap 1 (StarSet not_slash))
 (Cat (Lit slash)
 (Cat (Cap 2 (StarSet not_slash))
 (Cat (Lit slash)
 (Cat (Opt (Cat (Cap 3 (StarSet not_slash)) (Lit slash)))
      (Cap 4 (StarSet any_char)))))).

(** [match[i]] of a slice of strings. *)
Definition index (l : list string) (i : nat) : string := nth i l EmptyString.

Section Parse.

(** The two library functions [Parse] calls: [strings.TrimSpace], and
    [cover.ParseProfilesFromReader], which gives the profiles or the
    text of its error. *)
Variable TrimSpace : string -> string.
Variable ParseProfilesFromReader : string -> list Profile + string.

(** The loop of lines 41 to 60; [coverage] is the slice built so far.  A
    result is the pair Go returns, with [[]] for the nil slice. *)
Fixpoint parse_profiles (profiles : list Profile) (coverage : list Coverage)
  : list Coverage * option error :=
  match profiles with
  | [] => (coverage, None)
  | profile :: profiles' =>
      let match_ := FindStringSubmatch parseLineRegex (ProfileFileName profile) in
      if (length match_ =? 0)%nat then
        ([], Some (Wrapf ErrInvalidCoverageData "invalid coverage file name %q"
                         [ProfileFileName profile]))
      else
        let host := index match_ hostPosition in
        let owner := index match_ ownerPosition in
        let repo := index match_ repoPosition in
        let path := index match_ pathPosition in
        parse_profiles profiles'
          (coverage ++ [ {| FileName := ProfileFileName profile;
                            Host := host;
                            Owner := owner;
                            Repo := repo;
                            Path := path;
                            Blocks := ProfileBlocks profile |} ])
  end.

Definition Parse (coverageData : string) : list Coverage * option error :=
  let coverageData := TrimSpace coverageData in
  match ParseProfilesFromReader coverageData with
  | inr err => ([], Some (Wrapf ErrInvalidCoverageData err []))
  | inl profiles =>
      if (length profiles =? 0)%nat then ([], None)
      else parse_profiles profiles []
  end.

End Parse.

(** * Vocabulary of the properties

    Exact sums, the contents of the accumulators, the shapes of file
    identifiers, values of [float64], and the inputs the properties are
    run on. *)

(** The sum of [f] over a list of blocks, in unbounded integers. *)
Definition sumZ (f : ProfileBlock -> Z) (bs : list ProfileBlock) : Z :=
  fold_right (fun b acc => f b + acc) 0 bs.

(** [endLine - startLine + 1]. *)
Definition block_lines (b : ProfileBlock) : Z := EndLine b - StartLine b + 1.

(** The blocks of all records, in order. *)
Definition all_blocks (items : list Coverage) : list ProfileBlock :=
  flat_map Blocks items.

(** The blocks with [count > 0]. *)
Definition covered_blocks (bs : list ProfileBlock) : list ProfileBlock :=
  List.filter is_covered bs.

(** The four counters after a run of the loops, as exact sums reduced to
    the range of [int]. *)
Definition counts_are (r : OverallCoverageBreakdown) (bs : list ProfileBlock) : Prop :=
  TotalLines r = GoInt.wrap (sumZ block_lines bs) /\
  TotalCoveredLines r = GoInt.wrap (sumZ block_lines (covered_blocks bs)) /\
  TotalStatements r = GoInt.wrap (sumZ NumStmt bs) /\
  TotalCoveredStatements r = GoInt.wrap (sumZ NumStmt (covered_blocks bs)).

(** The quotient both aggregators store: [0.0] for an empty total. *)
Definition ratio (cov stmts : Z) : float64 :=
  if stmts =? 0 then GoFloat.zero
  else GoFloat.div (GoFloat.of_int cov) (GoFloat.of_int stmts).

(** The entry of [statements[name]] for a key whose accumulated blocks
    are [bs]: none before the first block. *)
Definition stmts_entry (bs : list ProfileBlock) : option Z :=
  match bs with
  | [] => None
  | _ => Some (GoInt.wrap (sumZ NumStmt bs))
  end.

(** The entry of [result[name]] for that key. *)
Definition bucket_entry (bs : list ProfileBlock) : option float64 :=
  match bs with
  | [] => None
  | _ => Some (ratio (GoInt.wrap (sumZ NumStmt (covered_blocks bs)))
                     (GoInt.wrap (sumZ NumStmt bs)))
  end.

(** [statements] and [covered] hold the sums over the blocks [f name key]
    accumulated so far for every name and key. *)
Definition tracks (st : group_state)
    (f : string -> string -> list ProfileBlock) : Prop :=
  (forall n k, inner (statements st) n !! k = stmts_entry (f n k)) /\
  (forall n k, read (covered st) n k =
               GoInt.wrap (sumZ NumStmt (covered_blocks (f n k)))).

(** One more run of blocks accumulated under [name] and [key]. *)
Definition extend (f : string -> string -> list ProfileBlock)
    (name key : string) (bs : list ProfileBlock)
  : string -> string -> list ProfileBlock :=
  fun n k => if decide (n = name /\ k = key) then f n k ++ bs else f n k.

(** The blocks of the records whose file name [group] maps to [key]. *)
Definition key_blocks (group : ParseGroup) (key : string) (items : list Coverage)
  : list ProfileBlock :=
  flat_map (fun cov =>
    if decide (KeyFunc group (FileName cov) = key) then Blocks cov else []) items.

(** What one pass of [group] over [items] adds. *)
Definition extend_group (f : string -> string -> list ProfileBlock)
    (group : ParseGroup) (items : list Coverage)
  : string -> string -> list ProfileBlock :=
  fun n k => if decide (n = Name group) then f n k ++ key_blocks group k items else f n k.

(** The state between two iterations of the loop over [groups]. *)
Definition settled (st : group_state)
    (f : string -> string -> list ProfileBlock) : Prop :=
  tracks st f /\
  (forall n k, inner (result st) n !! k = bucket_entry (f n k)).

(** The blocks accumulated under [name] and [key] by a whole call: for
    every specification called [name], in order, the blocks of the
    records it maps to [key]. *)
Definition acc_blocks (items : list Coverage) (groups : list ParseGroup)
    (name key : string) : list ProfileBlock :=
  flat_map (fun group =>
    if decide (name = Name group) then key_blocks group key items else []) groups.

(** The records whose file name [group] maps to [key]. *)
Definition records_of_key (group : ParseGroup) (key : string)
    (items : list Coverage) : list Coverage :=
  List.filter (fun cov => bool_decide (KeyFunc group (FileName cov) = key)) items.

(** A block of [n] statements hit [c] times. *)
Definition block_of (n c : Z) : ProfileBlock :=
  {| StartLine := 1; StartCol := 1; EndLine := 1; EndCol := 1;
     NumStmt := n; Count := c |}.

(** A record as [Parse] builds it for a four-segment file name. *)
Definition record_of (file : string) (bs : list ProfileBlock) : Coverage :=
  {| FileName := "example.com/org/repo/" +:+ file;
     Host := "example.com"; Owner := "org"; Repo := "repo"; Path := file;
     Blocks := bs |}.

Definition by_file : ParseGroup := {| Name := "file"; KeyFunc := fun f => f |}.

(** The names of the result are the names of the specifications, one
    bucket for each specification. *)
Definition names_one_to_one (items : list Coverage) (groups : list ParseGroup)
  : Prop :=
  let res := fst (GroupCoverage items groups) in
  (forall n, is_Some (res !! n) <-> In n (map Name groups)) /\
  size res = length groups.

(** The bucket of a specification is what the specification gives when it
    is evaluated alone. *)
Definition buckets_independent (items : list Coverage) (groups : list ParseGroup)
  : Prop :=
  forall group, In group groups ->
    fst (GroupCoverage items groups) !! Name group
    = fst (GroupCoverage items [group]) !! Name group.

Definition all_in_one : ParseGroup :=
  {| Name := "file"; KeyFunc := fun _ => "all"%string |}.

Definition two_records : list Coverage :=
  [record_of "a.go" [block_of 1 1]; record_of "b.go" [block_of 1 0]].

Fixpoint all_chars (p : ascii -> bool) (s : string) : bool :=
  match s with
  | String c s' => p c && all_chars p s'
  | EmptyString => true
  end.

(** No ['/'] in [s]: [s] is one segment. *)
Definition no_slash (s : string) : Prop := all_chars not_slash s = true.

(** No line feed in [s]. *)
Definition no_newline (s : string) : Prop := all_chars any_char s = true.

(** The number of ['/'] in [s]. *)
Fixpoint slashes (s : string) : nat :=
  match s with
  | String c s' => (if Ascii.eqb c slash then 1 else 0) + slashes s'
  | EmptyString => 0
  end.

(** The longest prefix of [s] without a line feed, and what follows it. *)
Fixpoint line_prefix (s : string) : string :=
  match s with
  | String c s' => if any_char c then String c (line_prefix s') else EmptyString
  | EmptyString => EmptyString
  end.

Fixpoint line_rest (s : string) : string :=
  match s with
  | String c s' => if any_char c then line_rest s' else s
  | EmptyString => EmptyString
  end.

(** [host + "/" + owner + "/" + (repo + "/" if repo non-empty) + path]. *)
Definition rebuild (host owner repo path : string) : string :=
  host +:+ "/" +:+ owner +:+ "/" +:+
  (if String.eqb repo "" then "" else repo +:+ "/") +:+ path.

Definition rebuild_match (m : list string) : string :=
  rebuild (index m hostPosition) (index m ownerPosition)
          (index m repoPosition) (index m pathPosition).

(** A continuation that wants a ['/'] first. *)
Definition needs_slash {R : Type} (k : string -> option R) : Prop :=
  k "" = None /\ forall c s, c <> slash -> k (String c s) = None.

(** The error for a file name the pattern does not match. *)
Definition invalid_file_name (fileName : string) : error :=
  Wrapf ErrInvalidCoverageData "invalid coverage file name %q" [fileName].

(** A stand-in for the profile parser of the library: it reads nothing
    from an empty text and otherwise gives the profiles it is built with. *)
Definition profiles_reader (profiles : list Profile) (text : string)
  : list Profile + string :=
  if String.eqb text "" then inl [] else inl profiles.

(** Leading and trailing blanks and line feeds removed: what
    [strings.TrimSpace] does on those two characters. *)
Fixpoint trim_left (s : string) : string :=
  match s with
  | String c s' =>
      if Ascii.eqb c " " || Ascii.eqb c newline then trim_left s' else s
  | EmptyString => EmptyString
  end.

Fixpoint trim_right (s : string) : string :=
  match s with
  | String c s' =>
      match trim_right s' with
      | EmptyString =>
          if Ascii.eqb c " " || Ascii.eqb c newline then EmptyString
          else String c EmptyString
      | t => String c t
      end
  | EmptyString => EmptyString
  end.

Definition trim_blanks (s : string) : string := trim_right (trim_left s).

(** The state of the shifter after [j] steps on [2 * n]: the quotient,
    the bit below it and whether anything is left below that bit. *)
Definition shifted (n j : Z) (st : shr_record) : Prop :=
  0 <= shr_m st /\
  exists t, 0 <= t < 2 ^ j /\
    2 * n = shr_m st * 2 ^ (j + 1) + (if shr_r st then 2 ^ j else 0) + t /\
    shr_s st = negb (t =? 0).

(** A significand of 53 bits, or [2 ^ 53] after rounding up, as a float. *)
Definition rounded (sx : bool) (m e : Z) : spec_float :=
  if m <? 2 ^ 53 then S754_finite sx (Z.to_pos m) e
  else S754_finite sx (2 ^ 52) (e + 1).

(** A positive float with a full significand. *)
Definition normal (f : spec_float) : Prop :=
  exists m e,
    f = S754_finite false m e /\ 2 ^ 52 <= Zpos m < 2 ^ 53 /\ -52 <= e <= 11.

(** The value of a positive float, scaled by [2 ^ 52]. *)
Definition scaled (f : spec_float) : Z :=
  match f with
  | S754_finite false m e => Zpos m * 2 ^ (e + 52)
  | _ => 0
  end.

(** What the data model asks of every block. *)
Definition well_formed (items : list Coverage) : Prop :=
  forall b, In b (all_blocks items) ->
    0 <= NumStmt b /\ 0 <= Count b /\ StartLine b <= EndLine b.

Definition ratios_in_unit (res : gmap string (gmap string float64)) : Prop :=
  forall n bucket k r,
    res !! n = Some bucket -> bucket !! k = Some r -> GoFloat.in_unit r = true.

Definition breakdown_in_bounds (r : OverallCoverageBreakdown) : Prop :=
  0 <= TotalLines r /\ 0 <= TotalCoveredLines r /\
  0 <= TotalStatements r /\ 0 <= TotalCoveredStatements r /\
  GoFloat.in_unit (PercentByLines r) = true /\
  GoFloat.in_unit (PercentByStatements r) = true.

(** One file, a block of [2 ^ 62] statements that was hit and one that
    was not: the total wraps around to [- 2 ^ 63]. *)
Definition overflowing : list Coverage :=
  [record_of "a.go" [block_of (2 ^ 62) 1; block_of (2 ^ 62) 0]].

(** The record [Parse] appends for a profile: lines 47 to 59. *)
Definition coverage_of_profile (profile : Profile) : Coverage :=
  let match_ := FindStringSubmatch parseLineRegex (ProfileFileName profile) in
  {| FileName := ProfileFileName profile;
     Host := index match_ hostPosition;
     Owner := index match_ ownerPosition;
     Repo := index match_ repoPosition;
     Path := index match_ pathPosition;
     Blocks := ProfileBlocks profile |}.

(** The file identifier of [profile] has the three segments the pattern
    asks for. *)
Definition matches_pattern (profile : Profile) : Prop :=
  (2 <= slashes (ProfileFileName profile))%nat.

(** Two profiles, one with a repository segment and one without. *)
Definition two_profiles : list Profile :=
  [ {| ProfileFileName := "github.com/org/repo/a.go";
       ProfileBlocks := [block_of 1 1] |};
    {| ProfileFileName := "github.com/org/b.go";
       ProfileBlocks := [block_of 2 0] |} ].

(** A specification that sends every file to the one key [key]. *)
Definition constant_key (name key : string) : ParseGroup :=
  {| Name := name; KeyFunc := fun _ => key |}.

(** Two blocks with the same statement count, the same line span, and
    either both hit or both not. *)
Definition same_measure (b b' : ProfileBlock) : Prop :=
  NumStmt b = NumStmt b' /\
  EndLine b - StartLine b = EndLine b' - StartLine b' /\
  is_covered b = is_covered b'.

(** Two records of the same file whose blocks measure the same, one by
    one. *)
Definition same_file_and_measure (cov cov' : Coverage) : Prop :=
  FileName cov = FileName cov' /\ Forall2 same_measure (Blocks cov) (Blocks cov').

(** No record holds a block (in particular, there is no record). *)
Definition blockless (items : list Coverage) : Prop :=
  forall cov, In cov items -> Blocks cov = [].

(** Neither NaN nor an infinity. *)
Definition is_finite (f : float64) : bool :=
  match f with
  | S754_zero _ | S754_finite _ _ _ => true
  | S754_infinity _ | S754_nan => false
  end.

(** [f] with the sign [sx]. *)
Definition set_sign (sx : bool) (f : spec_float) : spec_float :=
  match f with
  | S754_zero _ => S754_zero sx
  | S754_infinity _ => S754_infinity sx
  | S754_nan => S754_nan
  | S754_finite _ m e => S754_finite sx m e
  end.

(** A float of either sign with a full significand. *)
Definition finite_normal (f : spec_float) : Prop :=
  exists s m e,
    f = S754_finite s m e /\ 2 ^ 52 <= Zpos m < 2 ^ 53 /\ -52 <= e <= 11.

(** Every block of [bs] was hit; no block of [bs] was hit. *)
Definition all_hit (bs : list ProfileBlock) : Prop :=
  forall b, In b bs -> 0 < Count b.

Definition none_hit (bs : list ProfileBlock) : Prop :=
  forall b, In b bs -> Count b <= 0.

(** The blocks with [count > 0], read off the hit count itself. *)
Definition hit_blocks (bs : list ProfileBlock) : list ProfileBlock :=
  List.filter (fun b => 0 <? Count b) bs.

(** covered/statements with both sums exact, [0.0] for an empty total:
    the ratio of a key whose blocks are [bs], as the specification words
    it. *)
Definition stated_ratio (bs : list ProfileBlock) : float64 :=
  if sumZ NumStmt bs =? 0 then GoFloat.zero
  else GoFloat.div (GoFloat.of_int (sumZ NumStmt (hit_blocks bs)))
                   (GoFloat.of_int (sumZ NumStmt bs)).

(** The bucket of [group] maps every key it holds to the stated ratio over
    the blocks of the records that [group] maps to the key. *)
Definition ratio_as_stated (items : list Coverage) (groups : list ParseGroup)
    (group : ParseGroup) : Prop :=
  exists bucket,
    fst (GroupCoverage items groups) !! Name group = Some bucket /\
    forall k r, bucket !! k = Some r ->
      r = stated_ratio (all_blocks (records_of_key group k items)).

(** The breakdown holds the four exact sums and the two quotients, as the
    specification words it. *)
Definition breakdown_as_stated (items : list Coverage) : Prop :=
  let r := fst (GetTotalCoverageBreakdown items) in
  let bs := all_blocks items in
  TotalLines r = sumZ block_lines bs /\
  TotalCoveredLines r = sumZ block_lines (hit_blocks bs) /\
  TotalStatements r = sumZ NumStmt bs /\
  TotalCoveredStatements r = sumZ NumStmt (hit_blocks bs) /\
  PercentByLines r =
    (if TotalLines r =? 0 then GoFloat.zero
     else GoFloat.div (GoFloat.of_int (TotalCoveredLines r))
                      (GoFloat.of_int (TotalLines r))) /\
  PercentByStatements r =
    (if TotalStatements r =? 0 then GoFloat.zero
     else GoFloat.div (GoFloat.of_int (TotalCoveredStatements r))
                      (GoFloat.of_int (TotalStatements r))).

(** * Properties *)

Example ex_match_repo :
  FindStringSubmatch parseLineRegex "github.com/org/repo/pkg/file.go"
  = ["github.com/org/repo/pkg/file.go"; "github.com"; "org"; "repo"; "pkg/file.go"]%string.
Proof. vm_compute. reflexivity. Qed.

Example ex_match_norepo :
  FindStringSubmatch parseLineRegex "github.com/org/file.go"
  = ["github.com/org/file.go"; "github.com"; "org"; ""; "file.go"]%string.
Proof. vm_compute. reflexivity. Qed.

Example ex_match_none :
  FindStringSubmatch parseLineRegex "file.go" = [].
Proof. vm_compute. reflexivity. Qed.

(** ** Wrap-around arithmetic *)

Lemma wrap_in_range z : GoInt.in_range (GoInt.wrap z).
Proof.
  unfold GoInt.in_range, GoInt.wrap, GoInt.half, GoInt.modulus.
  pose proof (Z.mod_pos_bound (z + 2 ^ 63) (2 ^ 64)). lia.
Qed.

Lemma wrap_small z : GoInt.in_range z -> GoInt.wrap z = z.
Proof.
  unfold GoInt.in_range, GoInt.wrap, GoInt.half, GoInt.modulus. intros H.
  rewrite Z.mod_small; lia.
Qed.

Lemma wrap_add_l a b : GoInt.wrap (GoInt.wrap a + b) = GoInt.wrap (a + b).
Proof.
  unfold GoInt.wrap.
  replace ((a + GoInt.half) mod GoInt.modulus - GoInt.half + b + GoInt.half)
    with ((a + GoInt.half) mod GoInt.modulus + b) by lia.
  rewrite Zplus_mod_idemp_l. f_equal. f_equal. lia.
Qed.

Lemma wrap_add_r a b : GoInt.wrap (a + GoInt.wrap b) = GoInt.wrap (a + b).
Proof. rewrite (Z.add_comm a), wrap_add_l. f_equal. lia. Qed.

Lemma wrap_0 : GoInt.wrap 0 = 0.
Proof. reflexivity. Qed.

(** ** Exact sums over blocks *)

Lemma sumZ_app f bs1 bs2 : sumZ f (bs1 ++ bs2) = sumZ f bs1 + sumZ f bs2.
Proof. induction bs1 as [|b bs1 IH]; simpl; [reflexivity | rewrite IH; lia]. Qed.

Lemma covered_blocks_app bs1 bs2 :
  covered_blocks (bs1 ++ bs2) = covered_blocks bs1 ++ covered_blocks bs2.
Proof. apply List.filter_app. Qed.

Lemma sumZ_nonneg f bs :
  (forall b, In b bs -> 0 <= f b) -> 0 <= sumZ f bs.
Proof.
  induction bs as [|b bs IH]; simpl; intros H; [lia|].
  pose proof (H b (or_introl eq_refl)).
  assert (0 <= sumZ f bs) by (apply IH; intros; apply H; now right). lia.
Qed.

Lemma sumZ_covered_le f bs :
  (forall b, In b bs -> 0 <= f b) ->
  0 <= sumZ f (covered_blocks bs) <= sumZ f bs.
Proof.
  induction bs as [|b bs IH]; simpl; intros H; [lia|].
  pose proof (H b (or_introl eq_refl)).
  assert (0 <= sumZ f (covered_blocks bs) <= sumZ f bs)
    by (apply IH; intros; apply H; now right).
  destruct (is_covered b); simpl; lia.
Qed.

(** ** The overall aggregator *)

Lemma lines_in_block b :
  GoInt.add (GoInt.sub (EndLine b) (StartLine b)) 1 = GoInt.wrap (block_lines b).
Proof. unfold GoInt.add, GoInt.sub, block_lines. apply wrap_add_l. Qed.

Lemma breakdown_block_counts r b bs :
  counts_are r bs -> counts_are (breakdown_block r b) (bs ++ [b]).
Proof.
  intros (Hl & Hcl & Hs & Hcs). unfold counts_are, breakdown_block.
  cbn [TotalLines TotalCoveredLines TotalStatements TotalCoveredStatements].
  rewrite lines_in_block, covered_blocks_app, !sumZ_app. simpl.
  rewrite Hl, Hcl, Hs, Hcs. unfold GoInt.add.
  destruct (is_covered b); simpl; rewrite ?wrap_add_l, ?wrap_add_r, ?Z.add_0_r;
    repeat split; reflexivity.
Qed.

Lemma breakdown_blocks_counts bs' : forall r bs,
  counts_are r bs -> counts_are (fold_left breakdown_block bs' r) (bs ++ bs').
Proof.
  induction bs' as [|b bs' IH]; intros r bs H; simpl.
  - now rewrite app_nil_r.
  - replace (bs ++ b :: bs') with ((bs ++ [b]) ++ bs') by now rewrite <- app_assoc.
    apply IH, breakdown_block_counts, H.
Qed.

Lemma breakdown_items_counts items : forall r bs,
  counts_are r bs ->
  counts_are (fold_left breakdown_item items r) (bs ++ all_blocks items).
Proof.
  induction items as [|c items IH]; intros r bs H; simpl.
  - now rewrite app_nil_r.
  - rewrite app_assoc. apply IH. now apply breakdown_blocks_counts.
Qed.

Lemma breakdown_blocks_percent bs : forall r,
  PercentByLines (fold_left breakdown_block bs r) = PercentByLines r /\
  PercentByStatements (fold_left breakdown_block bs r) = PercentByStatements r.
Proof.
  induction bs as [|b bs IH]; intros r; simpl; [tauto|].
  destruct (IH (breakdown_block r b)) as [-> ->]. split; reflexivity.
Qed.

Lemma breakdown_items_percent items : forall r,
  PercentByLines (fold_left breakdown_item items r) = PercentByLines r /\
  PercentByStatements (fold_left breakdown_item items r) = PercentByStatements r.
Proof.
  induction items as [|c items IH]; intros r; simpl; [tauto|].
  destruct (IH (breakdown_item r c)) as [-> ->]. apply breakdown_blocks_percent.
Qed.

Lemma breakdown_counts items :
  counts_are (fold_left breakdown_item items breakdown_init) (all_blocks items).
Proof.
  assert (H0 : counts_are breakdown_init []) by (repeat split; reflexivity).
  exact (breakdown_items_counts items _ _ H0).
Qed.

(** The last step keeps the counters and sets the two percentages. *)
Lemma breakdown_percentages_fields r :
  let r' := breakdown_percentages r in
  TotalLines r' = TotalLines r /\
  TotalCoveredLines r' = TotalCoveredLines r /\
  TotalStatements r' = TotalStatements r /\
  TotalCoveredStatements r' = TotalCoveredStatements r /\
  PercentByLines r' =
    (if TotalLines r =? 0 then PercentByLines r
     else ratio (TotalCoveredLines r) (TotalLines r)) /\
  PercentByStatements r' =
    (if TotalStatements r =? 0 then PercentByStatements r
     else ratio (TotalCoveredStatements r) (TotalStatements r)).
Proof.
  unfold breakdown_percentages, ratio.
  destruct (TotalLines r =? 0) eqn:El; destruct (TotalStatements r =? 0) eqn:Es;
    cbn [negb TotalLines TotalCoveredLines TotalStatements TotalCoveredStatements
         PercentByLines PercentByStatements];
    rewrite ?El, ?Es;
    cbn [negb TotalLines TotalCoveredLines TotalStatements TotalCoveredStatements
         PercentByLines PercentByStatements];
    rewrite ?El, ?Es; repeat split; reflexivity.
Qed.

(** The breakdown of a call: its counters and its percentages. *)
Lemma breakdown_fields items :
  let r := fst (GetTotalCoverageBreakdown items) in
  counts_are r (all_blocks items) /\
  PercentByLines r = ratio (TotalCoveredLines r) (TotalLines r) /\
  PercentByStatements r = ratio (TotalCoveredStatements r) (TotalStatements r).
Proof.
  unfold GetTotalCoverageBreakdown. cbn [fst].
  pose proof (breakdown_counts items) as (Hl & Hcl & Hs & Hcs).
  destruct (breakdown_items_percent items breakdown_init) as [Hpl Hps].
  set (r := fold_left breakdown_item items breakdown_init) in *.
  destruct (breakdown_percentages_fields r) as (El & Ecl & Es & Ecs & Epl & Eps).
  cbn zeta. unfold counts_are. rewrite El, Ecl, Es, Ecs, Epl, Eps, Hpl, Hps.
  split; [repeat split; assumption|].
  unfold ratio. cbn [PercentByLines PercentByStatements breakdown_init].
  split; [destruct (TotalLines r =? 0) | destruct (TotalStatements r =? 0)];
    reflexivity.
Qed.

Lemma hit_blocks_covered bs : hit_blocks bs = covered_blocks bs.
Proof. reflexivity. Qed.

(** C2, as stated, at [overflowing]: the two blocks hold [2 ^ 63]
    statements together, and the breakdown counts [- 2 ^ 63]. *)
Lemma breakdown_sums_fail_on_overflow : ~ breakdown_as_stated overflowing.
Proof.
  intros (_ & _ & H & _). vm_compute in H. discriminate H.
Qed.

(** C2, amended: the breakdown holds the four sums over all blocks of all
    records (lines counted as [endLine - startLine + 1], the covered ones
    over the blocks with [count > 0]), each reduced to the 64-bit range
    of [int], and so the sum itself whenever that lies in the range; each
    percentage is the [float64] quotient of the covered count by the
    total, and [0.0] when the total is zero. *)
Theorem total_breakdown_sums (items : list Coverage) :
  let r := fst (GetTotalCoverageBreakdown items) in
  let bs := all_blocks items in
  (TotalLines r = GoInt.wrap (sumZ block_lines bs) /\
   TotalCoveredLines r = GoInt.wrap (sumZ block_lines (hit_blocks bs)) /\
   TotalStatements r = GoInt.wrap (sumZ NumStmt bs) /\
   TotalCoveredStatements r = GoInt.wrap (sumZ NumStmt (hit_blocks bs))) /\
  ((GoInt.in_range (sumZ block_lines bs) -> TotalLines r = sumZ block_lines bs) /\
   (GoInt.in_range (sumZ block_lines (hit_blocks bs)) ->
    TotalCoveredLines r = sumZ block_lines (hit_blocks bs)) /\
   (GoInt.in_range (sumZ NumStmt bs) -> TotalStatements r = sumZ NumStmt bs) /\
   (GoInt.in_range (sumZ NumStmt (hit_blocks bs)) ->
    TotalCoveredStatements r = sumZ NumStmt (hit_blocks bs))) /\
  PercentByLines r =
    (if TotalLines r =? 0 then GoFloat.zero
     else GoFloat.div (GoFloat.of_int (TotalCoveredLines r))
                      (GoFloat.of_int (TotalLines r))) /\
  PercentByStatements r =
    (if TotalStatements r =? 0 then GoFloat.zero
     else GoFloat.div (GoFloat.of_int (TotalCoveredStatements r))
                      (GoFloat.of_int (TotalStatements r))).
Proof.
  intros r bs. subst r bs.
  destruct (breakdown_fields items) as ((Hl & Hcl & Hs & Hcs) & Hpl & Hps).
  split; [|split].
  - split; [exact Hl|]. split; [exact Hcl|]. split; [exact Hs | exact Hcs].
  - rewrite Hl, Hcl, Hs, Hcs.
    split; [|split; [|split]]; intros H; apply wrap_small; exact H.
  - split; [exact Hpl | exact Hps].
Qed.

(** ** The grouped aggregator: what the three maps hold *)

Section NestedMaps.
Context {V : Type}.
Implicit Types m : gmap string (gmap string V).

Lemma inner_insert m n n' (b : gmap string V) :
  inner (<[n := b]> m) n' = if decide (n = n') then b else inner m n'.
Proof.
  unfold inner. rewrite lookup_insert. destruct (decide (n = n')); reflexivity.
Qed.

Lemma inner_ensure m n n' : inner (ensure n m) n' = inner m n'.
Proof.
  unfold ensure. destruct (m !! n) eqn:E; [reflexivity|].
  rewrite inner_insert. destruct (decide (n = n')) as [<-|]; [|reflexivity].
  unfold inner. now rewrite E.
Qed.

Lemma ensure_is_Some m n n' :
  is_Some (ensure n m !! n') <-> n' = n \/ is_Some (m !! n').
Proof.
  unfold ensure. destruct (m !! n) eqn:E.
  - split; [auto|]. intros [->|H]; [rewrite E; eauto | exact H].
  - rewrite lookup_insert. destruct (decide (n = n')) as [<-|Hne].
    + split; eauto.
    + split; [auto|]. intros [->|H]; [congruence | exact H].
Qed.

Lemma insert_inner_is_Some m n n' (b : gmap string V) :
  is_Some (m !! n) -> (is_Some (<[n := b]> m !! n') <-> is_Some (m !! n')).
Proof.
  intros Hn. rewrite lookup_insert. destruct (decide (n = n')) as [<-|]; [|tauto].
  split; eauto.
Qed.

End NestedMaps.

Lemma add_to_inner m n k v n' k' :
  inner (add_to m n k v) n' !! k' =
  if decide (n' = n /\ k' = k) then Some (GoInt.add (read m n k) v)
  else inner m n' !! k'.
Proof.
  unfold add_to. rewrite inner_insert.
  destruct (decide (n = n')) as [<-|Hn].
  - rewrite lookup_insert. destruct (decide (k = k')) as [<-|Hk].
    + rewrite decide_True by tauto. reflexivity.
    + rewrite decide_False by (intros [_ ->]; congruence). reflexivity.
  - rewrite decide_False by (intros [-> _]; congruence). reflexivity.
Qed.

Lemma add_to_read m n k v n' k' :
  read (add_to m n k v) n' k' =
  if decide (n' = n /\ k' = k) then GoInt.add (read m n k) v else read m n' k'.
Proof.
  unfold read at 1. rewrite add_to_inner.
  destruct (decide (n' = n /\ k' = k)); reflexivity.
Qed.

Lemma add_to_is_Some m n k v n' :
  is_Some (m !! n) -> (is_Some (add_to m n k v !! n') <-> is_Some (m !! n')).
Proof. apply insert_inner_is_Some. Qed.

Lemma tracks_ext st f f' :
  tracks st f -> (forall n k, f n k = f' n k) -> tracks st f'.
Proof.
  intros [Hs Hc] E. split; intros n k; rewrite <- E; [apply Hs | apply Hc].
Qed.

Lemma stmts_entry_read st f n k :
  tracks st f -> read (statements st) n k = GoInt.wrap (sumZ NumStmt (f n k)).
Proof.
  intros [Hs _]. unfold read. rewrite Hs. destruct (f n k); reflexivity.
Qed.

Lemma stmts_entry_snoc bs b :
  stmts_entry (bs ++ [b]) = Some (GoInt.add (GoInt.wrap (sumZ NumStmt bs)) (NumStmt b)).
Proof.
  unfold stmts_entry. destruct (bs ++ [b]) eqn:E.
  - destruct bs; discriminate.
  - rewrite <- E, sumZ_app. simpl. unfold GoInt.add.
    now rewrite wrap_add_l, Z.add_0_r.
Qed.

Lemma group_block_tracks name key st f b :
  tracks st f -> tracks (group_block name key st b) (extend f name key [b]).
Proof.
  intros H. pose proof H as [Hs Hc]. split; intros n k; unfold group_block, extend;
    cbn [statements covered].
  - rewrite add_to_inner. destruct (decide (n = name /\ k = key)) as [[-> ->]|];
      [|apply Hs].
    now rewrite stmts_entry_snoc, (stmts_entry_read _ f).
  - destruct (is_covered b) eqn:Eb.
    + rewrite add_to_read. destruct (decide (n = name /\ k = key)) as [[-> ->]|];
        [|apply Hc].
      rewrite covered_blocks_app, sumZ_app, Hc. unfold covered_blocks at 2.
      simpl. rewrite Eb. simpl. unfold GoInt.add.
      now rewrite wrap_add_l, Z.add_0_r.
    + destruct (decide (n = name /\ k = key)) as [[-> ->]|]; [|apply Hc].
      rewrite covered_blocks_app, sumZ_app, Hc. unfold covered_blocks at 3.
      simpl. rewrite Eb. simpl. now rewrite Z.add_0_r.
Qed.

Lemma extend_extend f name key bs1 bs2 n k :
  extend (extend f name key bs1) name key bs2 n k = extend f name key (bs1 ++ bs2) n k.
Proof.
  unfold extend. destruct (decide (n = name /\ k = key)); [|reflexivity].
  now rewrite app_assoc.
Qed.

Lemma extend_nil f name key n k : extend f name key [] n k = f n k.
Proof. unfold extend. destruct (decide _); [apply app_nil_r | reflexivity]. Qed.

Lemma group_blocks_tracks name key bs : forall st f,
  tracks st f ->
  tracks (fold_left (group_block name key) bs st) (extend f name key bs).
Proof.
  induction bs as [|b bs IH]; intros st f H; simpl.
  - eapply tracks_ext; [exact H|]. intros. now rewrite extend_nil.
  - eapply tracks_ext; [apply IH, group_block_tracks, H|].
    intros n k. apply (extend_extend f name key [b] bs).
Qed.

Lemma group_blocks_result name key bs : forall st,
  result (fold_left (group_block name key) bs st) = result st.
Proof. induction bs as [|b bs IH]; intros st; simpl; [reflexivity | now rewrite IH]. Qed.

Lemma group_items_tracks group items : forall st f,
  tracks st f ->
  tracks (fold_left (group_item group) items st) (extend_group f group items).
Proof.
  induction items as [|c items IH]; intros st f H; simpl.
  - eapply tracks_ext; [exact H|]. intros n k. unfold extend_group, key_blocks.
    simpl. destruct (decide _); [now rewrite app_nil_r | reflexivity].
  - eapply tracks_ext; [apply IH, group_blocks_tracks, H|].
    intros n k. unfold extend_group, extend, key_blocks. simpl.
    destruct (decide (n = Name group)) as [->|Hn].
    + destruct (decide (KeyFunc group (FileName c) = k)) as [->|Hk].
      * rewrite decide_True by tauto. now rewrite app_assoc.
      * rewrite decide_False by (intros [_ ->]; congruence). reflexivity.
    + rewrite decide_False by tauto. reflexivity.
Qed.

Lemma group_items_result group items : forall st,
  result (fold_left (group_item group) items st) = result st.
Proof.
  induction items as [|c items IH]; intros st; simpl; [reflexivity|].
  rewrite IH. apply group_blocks_result.
Qed.

Lemma ratio_step_eq st name key stmts res :
  ratio_step st name key stmts res =
  <[name := <[key := ratio (read (covered st) name key) stmts]> (inner res name)]> res.
Proof. unfold ratio_step, ratio. destruct (stmts =? 0); reflexivity. Qed.

(** The range over [statements[name]] rewrites the entries of
    [result[name]] for the keys of that map and nothing else. *)
Lemma group_ratios_result name st :
  let res' := result (group_ratios name st) in
  (forall n, n <> name -> res' !! n = result st !! n) /\
  (forall k, inner res' name !! k =
             match inner (statements st) name !! k with
             | Some v => Some (ratio (read (covered st) name k) v)
             | None => inner (result st) name !! k
             end) /\
  (is_Some (result st !! name) -> is_Some (res' !! name)).
Proof.
  unfold group_ratios. cbn [result].
  apply (map_fold_weak_ind (fun res' (m : gmap string Z) =>
    (forall n, n <> name -> res' !! n = result st !! n) /\
    (forall k, inner res' name !! k =
               match m !! k with
               | Some v => Some (ratio (read (covered st) name k) v)
               | None => inner (result st) name !! k
               end) /\
    (is_Some (result st !! name) -> is_Some (res' !! name)))).
  - repeat split; auto.
  - intros key v m res Hm (Hother & Hname & Hsome). rewrite ratio_step_eq.
    split; [|split].
    + intros n Hn. rewrite lookup_insert_ne by congruence. now apply Hother.
    + intros k. rewrite inner_insert, decide_True by reflexivity.
      rewrite !lookup_insert. destruct (decide (key = k)) as [<-|]; [reflexivity|].
      apply Hname.
    + intros _. rewrite lookup_insert_eq. eauto.
Qed.

Lemma tracks_ensure st f name :
  tracks st f ->
  tracks {| result := ensure name (result st);
            statements := ensure name (statements st);
            covered := ensure name (covered st) |} f.
Proof.
  intros [Hs Hc]. split; intros n k; cbn [statements covered].
  - rewrite inner_ensure. apply Hs.
  - unfold read. rewrite inner_ensure. apply Hc.
Qed.

Lemma group_step_settled items st f group :
  settled st f -> settled (group_step items st group) (extend_group f group items).
Proof.
  intros [Ht Hr]. unfold group_step.
  set (st1 := {| result := ensure (Name group) (result st);
                 statements := ensure (Name group) (statements st);
                 covered := ensure (Name group) (covered st) |}).
  set (st2 := fold_left (group_item group) items st1).
  assert (Ht2 : tracks st2 (extend_group f group items))
    by (apply group_items_tracks, tracks_ensure, Ht).
  assert (Hr2 : result st2 = ensure (Name group) (result st))
    by (unfold st2; now rewrite group_items_result).
  pose proof (group_ratios_result (Name group) st2) as (Hother & Hname & _).
  split.
  - destruct Ht2 as [Hs Hc]. split; intros n k; [apply Hs | apply Hc].
  - intros n k. destruct (decide (n = Name group)) as [->|Hn].
    + rewrite Hname. destruct Ht2 as [Hs Hc]. rewrite Hs, Hc, Hr2, inner_ensure, Hr.
      unfold extend_group. rewrite decide_True by reflexivity.
      destruct (f (Name group) k ++ key_blocks group k items) eqn:E.
      * apply app_eq_nil in E as [-> _]. reflexivity.
      * reflexivity.
    + unfold inner at 1. rewrite (Hother n Hn), Hr2.
      fold (inner (ensure (Name group) (result st)) n).
      rewrite inner_ensure, Hr. unfold extend_group.
      now rewrite decide_False by exact Hn.
Qed.

Lemma group_step_names items st group n :
  is_Some (result (group_step items st group) !! n) <->
  n = Name group \/ is_Some (result st !! n).
Proof.
  unfold group_step.
  set (st1 := {| result := ensure (Name group) (result st);
                 statements := ensure (Name group) (statements st);
                 covered := ensure (Name group) (covered st) |}).
  set (st2 := fold_left (group_item group) items st1).
  assert (Hr2 : result st2 = ensure (Name group) (result st))
    by (unfold st2; now rewrite group_items_result).
  pose proof (group_ratios_result (Name group) st2) as (Hother & _ & Hsome).
  rewrite Hr2 in Hother, Hsome.
  destruct (decide (n = Name group)) as [->|Hn].
  - split; [auto|]. intros _. apply Hsome, ensure_is_Some. now left.
  - rewrite (Hother n Hn), ensure_is_Some. tauto.
Qed.

Lemma group_steps_settled items groups : forall st f,
  settled st f ->
  settled (fold_left (group_step items) groups st)
          (fun n k => f n k ++ acc_blocks items groups n k).
Proof.
  induction groups as [|g groups IH]; intros st f H; simpl.
  - destruct H as [[Hs Hc] Hr].
    repeat split; intros n k; unfold acc_blocks; simpl; rewrite app_nil_r; auto.
  - pose proof (IH _ _ (group_step_settled items st f g H)) as [[Hs Hc] Hr].
    assert (E : forall n k, extend_group f g items n k ++ acc_blocks items groups n k
                = f n k ++ acc_blocks items (g :: groups) n k).
    { intros n k. unfold extend_group, acc_blocks. simpl.
      destruct (decide (n = Name g)); [now rewrite app_assoc | reflexivity]. }
    repeat split; intros n k; rewrite <- E; auto.
Qed.

Lemma group_steps_names items groups : forall st n,
  is_Some (result (fold_left (group_step items) groups st) !! n) <->
  In n (map Name groups) \/ is_Some (result st !! n).
Proof.
  induction groups as [|g groups IH]; intros st n; simpl; [tauto|].
  rewrite IH, group_step_names. intuition congruence.
Qed.

(** Every entry of every bucket of the result, from the blocks
    accumulated for it. *)
Lemma GroupCoverage_entry items groups n k :
  inner (fst (GroupCoverage items groups)) n !! k =
  bucket_entry (acc_blocks items groups n k).
Proof.
  unfold GroupCoverage. cbn [fst].
  assert (H0 : settled group_init (fun _ _ => [])).
  { repeat split; intros; reflexivity. }
  destruct (group_steps_settled items groups _ _ H0) as [_ Hr].
  apply Hr.
Qed.

(** The names of the result are the names of the specifications. *)
Lemma GroupCoverage_names items groups n :
  is_Some (fst (GroupCoverage items groups) !! n) <-> In n (map Name groups).
Proof.
  unfold GroupCoverage. cbn [fst]. rewrite group_steps_names.
  cbn. rewrite lookup_empty. split; [intros [H|[x H]]; [exact H | discriminate] | auto].
Qed.

Lemma GroupCoverage_bucket items groups n bucket k :
  fst (GroupCoverage items groups) !! n = Some bucket ->
  bucket !! k = bucket_entry (acc_blocks items groups n k).
Proof.
  intros H. rewrite <- GroupCoverage_entry. unfold inner. now rewrite H.
Qed.

(** ** The grouped aggregator: ratios, keys and names *)

Lemma key_blocks_records group key items :
  key_blocks group key items = all_blocks (records_of_key group key items).
Proof.
  unfold key_blocks, all_blocks, records_of_key.
  induction items as [|c items IH]; simpl; [reflexivity|].
  destruct (decide (KeyFunc group (FileName c) = key)) as [E|E].
  - rewrite bool_decide_eq_true_2 by exact E. simpl. now rewrite IH.
  - rewrite bool_decide_eq_false_2 by exact E. simpl. exact IH.
Qed.

Lemma acc_blocks_single items group key :
  acc_blocks items [group] (Name group) key
  = all_blocks (records_of_key group key items).
Proof.
  unfold acc_blocks. simpl. rewrite decide_True by reflexivity.
  now rewrite app_nil_r, key_blocks_records.
Qed.

Lemma bucket_entry_Some bs r :
  bucket_entry bs = Some r ->
  bs <> [] /\
  r = ratio (GoInt.wrap (sumZ NumStmt (covered_blocks bs)))
            (GoInt.wrap (sumZ NumStmt bs)).
Proof. destruct bs; simpl; intros H; inversion H; split; congruence. Qed.

Lemma acc_blocks_In items groups group cov b :
  In group groups -> In cov items -> In b (Blocks cov) ->
  In b (acc_blocks items groups (Name group) (KeyFunc group (FileName cov))).
Proof.
  intros Hg Hc Hb. unfold acc_blocks. apply in_flat_map. exists group.
  split; [exact Hg|]. rewrite decide_True by reflexivity.
  unfold key_blocks. apply in_flat_map. exists cov. split; [exact Hc|].
  now rewrite decide_True by reflexivity.
Qed.

Lemma acc_blocks_nil items groups n k :
  (forall group cov, In group groups -> Name group = n -> In cov items ->
     KeyFunc group (FileName cov) = k -> Blocks cov = []) ->
  acc_blocks items groups n k = [].
Proof.
  intros H. unfold acc_blocks.
  induction groups as [|g groups IH]; simpl; [reflexivity|].
  rewrite IH by (intros g' c Hg'; apply H; now right). rewrite app_nil_r.
  destruct (decide (n = Name g)) as [En|]; [|reflexivity].
  assert (Hg : forall c, In c items -> KeyFunc g (FileName c) = k -> Blocks c = []).
  { intros c Hc Hk. apply (H g c); auto. now left. }
  clear H IH. unfold key_blocks.
  induction items as [|c items IH]; simpl; [reflexivity|].
  rewrite IH by (intros c' Hc'; apply Hg; now right). rewrite app_nil_r.
  destruct (decide (KeyFunc g (FileName c) = k)) as [Ek|]; [|reflexivity].
  apply Hg; [now left | exact Ek].
Qed.

Lemma acc_blocks_absent items groups n k :
  ~ In n (map Name groups) -> acc_blocks items groups n k = [].
Proof.
  unfold acc_blocks. induction groups as [|g groups IH]; simpl; intros H;
    [reflexivity|].
  rewrite decide_False by (intros E; apply H; left; congruence).
  apply IH. intros Hin. apply H. now right.
Qed.

Lemma acc_blocks_unique items groups group k :
  NoDup (map Name groups) -> In group groups ->
  acc_blocks items groups (Name group) k = key_blocks group k items.
Proof.
  induction groups as [|g groups IH]; simpl; [tauto|].
  intros Hnd Hin. pose proof (NoDup_cons_1_1 _ _ Hnd) as Hg.
  apply NoDup_cons_1_2 in Hnd. rewrite list_elem_of_In in Hg.
  change (acc_blocks items (g :: groups) (Name group) k)
    with ((if decide (Name group = Name g) then key_blocks g k items else [])
          ++ acc_blocks items groups (Name group) k).
  destruct Hin as [->|Hin].
  - rewrite decide_True by reflexivity.
    rewrite acc_blocks_absent by exact Hg. apply app_nil_r.
  - rewrite decide_False.
    + now apply IH.
    + intros E. apply Hg. rewrite <- E. apply in_map, Hin.
Qed.

Lemma acc_blocks_app items groups1 groups2 n k :
  acc_blocks items (groups1 ++ groups2) n k
  = acc_blocks items groups1 n k ++ acc_blocks items groups2 n k.
Proof. apply flat_map_app. Qed.

(** The blocks accumulated for a specification whose name no other
    specification of the call bears. *)
Lemma acc_blocks_alone items before group after k :
  ~ In (Name group) (map Name before) -> ~ In (Name group) (map Name after) ->
  acc_blocks items (before ++ group :: after) (Name group) k
  = all_blocks (records_of_key group k items).
Proof.
  intros Hb Ha.
  change (group :: after) with ([group] ++ after).
  rewrite !acc_blocks_app, (acc_blocks_absent _ before), (acc_blocks_absent _ after)
    by assumption.
  rewrite app_nil_r, acc_blocks_single. reflexivity.
Qed.

(** C1, as stated, at [overflowing] and at two specifications of one
    name.  In the first call the key holds [2 ^ 62] covered statements
    out of [2 ^ 63], and the bucket holds [-0.5] where the stated ratio is
    [0.5]; in the second the bucket of [by_file] holds the key ["all"] of
    the other specification, to which [by_file] maps no record. *)
Lemma ratio_formula_fails :
  ~ ratio_as_stated overflowing [by_file] by_file /\
  ~ ratio_as_stated two_records [all_in_one; by_file] by_file.
Proof.
  split.
  - intros (bucket & Hb & H).
    pose proof (GroupCoverage_bucket _ _ _ _ "example.com/org/repo/a.go" Hb) as Hk.
    set (entry := bucket_entry _) in Hk. vm_compute in entry. subst entry.
    specialize (H _ _ Hk). vm_compute in H. discriminate H.
  - intros (bucket & Hb & H).
    pose proof (GroupCoverage_bucket _ _ _ _ "all" Hb) as Hk.
    set (entry := bucket_entry _) in Hk. vm_compute in entry. subst entry.
    specialize (H _ _ Hk). vm_compute in H. discriminate H.
Qed.

(** C1, amended: for a specification whose name no other specification of
    the call bears, the bucket has an entry for a key [k] exactly when a
    record that the key function maps to [k] has a block, and the entry is
    the [float64] quotient covered/statements, [0.0] when statements is 0,
    where statements is the sum of [numStatements] over all blocks of all
    records whose file name the key function maps to [k] and covered the
    same sum over the blocks with [count > 0], each reduced to the 64-bit
    range of [int], and so the sum itself whenever that lies in the
    range. *)
Theorem group_ratio_formula (items : list Coverage)
    (before : list ParseGroup) (group : ParseGroup) (after : list ParseGroup) :
  ~ In (Name group) (map Name before) -> ~ In (Name group) (map Name after) ->
  exists bucket,
    fst (GroupCoverage items (before ++ group :: after)) !! Name group = Some bucket /\
    forall k,
      let bs := all_blocks (records_of_key group k items) in
      let stmts := GoInt.wrap (sumZ NumStmt bs) in
      let cov := GoInt.wrap (sumZ NumStmt (hit_blocks bs)) in
      bucket !! k =
        match bs with
        | [] => None
        | _ :: _ => Some (if stmts =? 0 then GoFloat.zero
                          else GoFloat.div (GoFloat.of_int cov) (GoFloat.of_int stmts))
        end /\
      (GoInt.in_range (sumZ NumStmt bs) -> stmts = sumZ NumStmt bs) /\
      (GoInt.in_range (sumZ NumStmt (hit_blocks bs)) ->
       cov = sumZ NumStmt (hit_blocks bs)).
Proof.
  intros Hbefore Hafter.
  destruct (proj2 (GroupCoverage_names items (before ++ group :: after) (Name group)))
    as [bucket Hb].
  { rewrite map_app. apply in_or_app. right. now left. }
  exists bucket. split; [exact Hb|]. intros k. cbn zeta. split; [|split].
  - rewrite (GroupCoverage_bucket _ _ _ _ k Hb), acc_blocks_alone by assumption.
    unfold bucket_entry, ratio.
    destruct (all_blocks (records_of_key group k items)); reflexivity.
  - apply wrap_small.
  - apply wrap_small.
Qed.

Lemma group_ratio_formula_witness :
  exists bucket,
    fst (GroupCoverage two_records ([all_in_one] ++ {| Name := "by file";
                                                       KeyFunc := KeyFunc by_file |} :: []))
      !! "by file"%string = Some bucket /\
    forall k,
      let bs := all_blocks (records_of_key {| Name := "by file";
                                              KeyFunc := KeyFunc by_file |} k two_records) in
      let stmts := GoInt.wrap (sumZ NumStmt bs) in
      let cov := GoInt.wrap (sumZ NumStmt (hit_blocks bs)) in
      bucket !! k =
        match bs with
        | [] => None
        | _ :: _ => Some (if stmts =? 0 then GoFloat.zero
                          else GoFloat.div (GoFloat.of_int cov) (GoFloat.of_int stmts))
        end /\
      (GoInt.in_range (sumZ NumStmt bs) -> stmts = sumZ NumStmt bs) /\
      (GoInt.in_range (sumZ NumStmt (hit_blocks bs)) ->
       cov = sumZ NumStmt (hit_blocks bs)).
Proof.
  apply (group_ratio_formula two_records [all_in_one]
           {| Name := "by file"; KeyFunc := KeyFunc by_file |} []).
  - simpl. intros [H|[]]. discriminate H.
  - simpl. intros [].
Defined.

(** C9: neither aggregator returns an error: the error component is nil
    for every input, next to the value computed. *)
Theorem aggregators_return_no_error :
  (forall items groups, snd (GroupCoverage items groups) = None) /\
  (forall items, snd (GetTotalCoverageBreakdown items) = None).
Proof. split; reflexivity. Qed.

(** C10: a record without blocks leaves the three maps as they are, and a
    key that the specifications of a name produce only from records
    without blocks is absent from the bucket of that name. *)
Theorem blockless_key_absent :
  (forall group st cov, Blocks cov = [] -> group_item group st cov = st) /\
  (forall items groups group k,
     In group groups ->
     (forall g cov, In g groups -> Name g = Name group -> In cov items ->
        KeyFunc g (FileName cov) = k -> Blocks cov = []) ->
     exists bucket,
       fst (GroupCoverage items groups) !! Name group = Some bucket /\
       bucket !! k = None).
Proof.
  split.
  - intros group st cov H. unfold group_item. now rewrite H.
  - intros items groups group k Hg H.
    destruct (proj2 (GroupCoverage_names items groups (Name group)))
      as [bucket Hb]; [apply in_map, Hg|].
    exists bucket. split; [exact Hb|].
    rewrite (GroupCoverage_bucket _ _ _ _ k Hb), acc_blocks_nil by exact H.
    reflexivity.
Qed.

Lemma blockless_key_absent_witness :
  exists bucket,
    fst (GroupCoverage [record_of "a.go" []] [by_file]) !! "file"%string = Some bucket /\
    bucket !! "example.com/org/repo/a.go"%string = None.
Proof.
  apply (proj2 blockless_key_absent [record_of "a.go" []] [by_file] by_file
               "example.com/org/repo/a.go"%string).
  - left. reflexivity.
  - intros g cov _ _ Hc _. destruct Hc as [<-|[]]. reflexivity.
Defined.

(** *** Observed keys *)

(** C5, as stated, at a record without blocks: its key is produced by
    the key function, and the bucket does not hold it. *)
Lemma observed_key_can_be_missing :
  ~ (forall items groups group cov,
       In group groups -> In cov items ->
       exists bucket,
         fst (GroupCoverage items groups) !! Name group = Some bucket /\
         is_Some (bucket !! KeyFunc group (FileName cov))).
Proof.
  intros H.
  destruct (H [record_of "a.go" []] [by_file] by_file (record_of "a.go" []))
    as (bucket & Hb & Hk); [now left | now left |].
  rewrite (GroupCoverage_bucket _ _ _ _ _ Hb) in Hk.
  destruct Hk as [r Hr]. discriminate Hr.
Qed.

(** C5, amended: the bucket of a specification holds every key that the
    key function produces on a record with at least one block; such a key
    whose accumulated statement count is 0 is there with ratio [0.0]. *)
Theorem observed_key_present (items : list Coverage) (groups : list ParseGroup)
    (group : ParseGroup) (cov : Coverage) :
  In group groups -> In cov items -> Blocks cov <> [] ->
  let k := KeyFunc group (FileName cov) in
  exists bucket r,
    fst (GroupCoverage items groups) !! Name group = Some bucket /\
    bucket !! k = Some r /\
    (GoInt.wrap (sumZ NumStmt (acc_blocks items groups (Name group) k)) = 0 ->
     r = GoFloat.zero).
Proof.
  intros Hg Hc Hb k.
  destruct (proj2 (GroupCoverage_names items groups (Name group)))
    as [bucket Hbucket]; [apply in_map, Hg|].
  exists bucket. rewrite (GroupCoverage_bucket _ _ _ _ k Hbucket).
  destruct (Blocks cov) as [|b bs] eqn:E; [congruence|].
  assert (Hin : In b (acc_blocks items groups (Name group) k)).
  { apply acc_blocks_In; [exact Hg | exact Hc |]. rewrite E. now left. }
  destruct (acc_blocks items groups (Name group) k) as [|b' bs'] eqn:Ea; [destruct Hin|].
  eexists. split; [exact Hbucket|]. split; [reflexivity|].
  intros ->. reflexivity.
Qed.

Lemma observed_key_present_witness :
  exists bucket r,
    fst (GroupCoverage [record_of "a.go" [block_of 0 0]] [by_file])
      !! "file"%string = Some bucket /\
    bucket !! "example.com/org/repo/a.go"%string = Some r /\
    (GoInt.wrap (sumZ NumStmt
       (acc_blocks [record_of "a.go" [block_of 0 0]] [by_file] "file"
                   "example.com/org/repo/a.go")) = 0 ->
     r = GoFloat.zero).
Proof.
  apply (observed_key_present [record_of "a.go" [block_of 0 0]] [by_file] by_file
           (record_of "a.go" [block_of 0 0])).
  - simpl. left. reflexivity.
  - simpl. left. reflexivity.
  - simpl. discriminate.
Defined.

(** *** Names and buckets *)

(** C6, as stated, at two specifications of the same name: they share one
    bucket, which holds the keys of both. *)
Lemma same_name_shares_bucket :
  ~ names_one_to_one two_records [all_in_one; by_file] /\
  ~ buckets_independent two_records [all_in_one; by_file].
Proof.
  split.
  - intros [_ Hsize]. vm_compute in Hsize. discriminate Hsize.
  - intros H. specialize (H by_file (or_intror (or_introl eq_refl))).
    assert (Hk : inner (fst (GroupCoverage two_records [all_in_one; by_file]))
                       "file" !! "all"%string
               = inner (fst (GroupCoverage two_records [by_file]))
                       "file" !! "all"%string).
    { unfold inner. change (Name by_file) with "file"%string in H. now rewrite H. }
    rewrite !GroupCoverage_entry in Hk. vm_compute in Hk. discriminate Hk.
Qed.

Lemma GroupCoverage_dom items groups :
  dom (fst (GroupCoverage items groups)) = list_to_set (map Name groups).
Proof.
  apply set_eq. intros n.
  rewrite elem_of_dom, GroupCoverage_names, elem_of_list_to_set, list_elem_of_In.
  reflexivity.
Qed.

(** C6, amended: when the specifications have pairwise distinct names,
    the names of the result are exactly their names, one bucket for each,
    and the bucket of each specification is the one it gives when
    evaluated alone. *)
Theorem distinct_names_buckets (items : list Coverage) (groups : list ParseGroup) :
  NoDup (map Name groups) ->
  names_one_to_one items groups /\ buckets_independent items groups.
Proof.
  intros Hnd. split; [split|].
  - intros n. apply GroupCoverage_names.
  - rewrite <- size_dom, GroupCoverage_dom, size_list_to_set by exact Hnd.
    apply length_map.
  - intros group Hg.
    destruct (proj2 (GroupCoverage_names items groups (Name group)))
      as [b1 H1]; [apply in_map, Hg|].
    destruct (proj2 (GroupCoverage_names items [group] (Name group)))
      as [b2 H2]; [now left|].
    rewrite H1, H2. f_equal. apply map_eq. intros k.
    rewrite (GroupCoverage_bucket _ _ _ _ k H1), (GroupCoverage_bucket _ _ _ _ k H2).
    rewrite acc_blocks_unique by assumption.
    rewrite acc_blocks_single, key_blocks_records. reflexivity.
Qed.

Lemma distinct_names_buckets_witness :
  names_one_to_one two_records [by_file; {| Name := "all"; KeyFunc := KeyFunc all_in_one |}] /\
  buckets_independent two_records [by_file; {| Name := "all"; KeyFunc := KeyFunc all_in_one |}].
Proof.
  apply (distinct_names_buckets two_records
           [by_file; {| Name := "all"; KeyFunc := KeyFunc all_in_one |}]).
  simpl. apply NoDup_cons. split.
  - intros H. apply list_elem_of_In in H. simpl in H. destruct H as [H|[]].
    discriminate H.
  - apply NoDup_singleton.
Defined.

(** ** Identity extraction *)

#[local] Arguments String.append !s1 s2 : simpl nomatch.

Lemma line_prefix_rest s : s = line_prefix s +:+ line_rest s.
Proof.
  induction s as [|c s IH]; simpl; [reflexivity|].
  destruct (any_char c); simpl; [f_equal; exact IH | reflexivity].
Qed.

Lemma no_newline_line_prefix s : no_newline s -> line_prefix s = s /\ line_rest s = "".
Proof.
  unfold no_newline. induction s as [|c s IH]; simpl; [auto|].
  intros H. apply andb_true_iff in H as [Hc Hs]. rewrite Hc.
  destruct (IH Hs) as [-> ->]. auto.
Qed.

Lemma append_nil_r s : s +:+ "" = s.
Proof. induction s as [|c s IH]; simpl; [reflexivity | now rewrite IH]. Qed.

Lemma append_assoc s1 s2 s3 : (s1 +:+ s2) +:+ s3 = s1 +:+ (s2 +:+ s3).
Proof. induction s1 as [|c s1 IH]; simpl; [reflexivity | now rewrite IH]. Qed.

Lemma length_append s1 s2 :
  String.length (s1 +:+ s2) = (String.length s1 + String.length s2)%nat.
Proof. induction s1 as [|c s1 IH]; simpl; [reflexivity | now rewrite IH]. Qed.

Lemma substring_prefix pre s : substring 0 (String.length pre) (pre +:+ s) = pre.
Proof.
  induction pre as [|c pre IH]; simpl.
  - destruct s; reflexivity.
  - now rewrite IH.
Qed.

Lemma consumed_append pre s : consumed (pre +:+ s) s = pre.
Proof.
  unfold consumed. rewrite length_append.
  replace (String.length pre + String.length s - String.length s)%nat
    with (String.length pre) by lia.
  apply substring_prefix.
Qed.

Lemma consumed_self s : consumed s s = "".
Proof. apply (consumed_append "" s). Qed.

Section StarSet.
Context {R : Type}.
Implicit Types k : string -> option R.

Lemma not_slash_true c : not_slash c = true <-> c <> slash.
Proof.
  unfold not_slash. rewrite negb_true_iff. apply Ascii.eqb_neq.
Qed.

Lemma star_segment_stop h t k :
  no_slash h -> needs_slash k ->
  star_set not_slash (h +:+ String slash t) k = k (String slash t).
Proof.
  unfold no_slash. intros Hh [_ Hk]. induction h as [|c h IH]; simpl.
  - reflexivity.
  - simpl in Hh. apply andb_true_iff in Hh as [Hc Hh]. rewrite Hc, (IH Hh).
    destruct (k (String slash t)); [reflexivity|].
    apply Hk. now apply not_slash_true.
Qed.

Lemma star_segment_none h k :
  no_slash h -> needs_slash k -> star_set not_slash h k = None.
Proof.
  unfold no_slash. intros Hh [Hk0 Hk]. induction h as [|c h IH]; simpl.
  - exact Hk0.
  - simpl in Hh. apply andb_true_iff in Hh as [Hc Hh]. rewrite Hc, (IH Hh).
    apply Hk. now apply not_slash_true.
Qed.

Lemma star_line s k :
  (forall s', is_Some (k s')) -> star_set any_char s k = k (line_rest s).
Proof.
  intros Hk. induction s as [|c s IH]; simpl; [reflexivity|].
  destruct (any_char c); [|reflexivity].
  rewrite IH. destruct (Hk (line_rest s)) as [r ->]. reflexivity.
Qed.

End StarSet.

Lemma slashes_zero s : slashes s = 0%nat <-> no_slash s.
Proof.
  unfold no_slash. induction s as [|c s IH]; simpl; [tauto|].
  unfold not_slash at 1. destruct (Ascii.eqb c slash); simpl; [split; [lia | discriminate]|].
  exact IH.
Qed.

Lemma slashes_split s :
  (1 <= slashes s)%nat ->
  exists h t, s = h +:+ String slash t /\ no_slash h /\ slashes s = S (slashes t).
Proof.
  induction s as [|c s IH]; simpl; [lia|].
  destruct (Ascii.eqb c slash) eqn:E.
  - apply Ascii.eqb_eq in E as ->. intros _. exists ""%string, s. repeat split.
  - intros H. destruct (IH H) as (h & t & -> & Hh & Hn).
    exists (String c h), t. repeat split; [|exact Hn].
    unfold no_slash. simpl. unfold not_slash at 1. rewrite E. exact Hh.
Qed.

(** Three segments at least: the text splits at its first two ['/']. *)
Lemma two_slashes_split s :
  (2 <= slashes s)%nat ->
  exists h o rest,
    s = h +:+ String slash (o +:+ String slash rest) /\ no_slash h /\ no_slash o.
Proof.
  intros H. destruct (slashes_split s) as (h & t & -> & Hh & Hn); [lia|].
  destruct (slashes_split t) as (o & rest & -> & Ho & _); [lia|].
  now exists h, o, rest.
Qed.

Section RunEquations.
Context {R : Type}.
Implicit Types k : string -> list string -> option R.

Lemma run_Cat r1 r2 s caps k :
  run (Cat r1 r2) s caps k = run r1 s caps (fun s' caps' => run r2 s' caps' k).
Proof. reflexivity. Qed.

Lemma run_Cap i r s caps k :
  run (Cap i r) s caps k
  = run r s caps (fun s' caps' => k s' (<[i := consumed s s']> caps')).
Proof. reflexivity. Qed.

Lemma run_StarSet p s caps k :
  run (StarSet p) s caps k = star_set p s (fun s' => k s' caps).
Proof. reflexivity. Qed.

Lemma run_Opt r s caps k :
  run (Opt r) s caps k
  = match run r s caps k with Some x => Some x | None => k s caps end.
Proof. reflexivity. Qed.

Lemma run_Lit_eq c s caps k : run (Lit c) (String c s) caps k = k s caps.
Proof. cbn [run]. now rewrite Ascii.eqb_refl. Qed.

Lemma run_Lit_ne c c' s caps k : c' <> c -> run (Lit c) (String c' s) caps k = None.
Proof.
  intros H. cbn [run]. rewrite (proj2 (Ascii.eqb_neq c c')); [reflexivity | congruence].
Qed.

End RunEquations.

(** The continuation begins with the literal ['/']. *)
Ltac slash_next :=
  split; [reflexivity | intros ? ? ?; cbn beta; rewrite ?run_Cat; now apply run_Lit_ne].

Lemma append_cons_assoc a c b d : (a +:+ String c b) +:+ d = a +:+ String c (b +:+ d).
Proof. now rewrite append_assoc. Qed.

Lemma consumed_line p : consumed p (line_rest p) = line_prefix p.
Proof. rewrite (line_prefix_rest p) at 1. apply consumed_append. Qed.

(** Four segments or more: the third one is the repository. *)
Lemma match_here_repo h o r p :
  no_slash h -> no_slash o -> no_slash r ->
  match_here parseLineRegex
    (h +:+ String slash (o +:+ String slash (r +:+ String slash p)))
  = Some [h +:+ String slash (o +:+ String slash (r +:+ String slash (line_prefix p)));
          h; o; r; line_prefix p].
Proof.
  intros Hh Ho Hr. unfold match_here, parseLineRegex.
  cbn [num_subexp replicate Nat.add].
  rewrite run_Cap, run_Cat, run_Cap, run_StarSet.
  rewrite star_segment_stop; [|exact Hh|slash_next].
  rewrite run_Cat, run_Lit_eq, run_Cat, run_Cap, run_StarSet.
  rewrite star_segment_stop; [|exact Ho|slash_next].
  rewrite run_Cat, run_Lit_eq, run_Cat, run_Opt.
  rewrite run_Cat at 1. rewrite run_Cap, run_StarSet.
  rewrite star_segment_stop; [|exact Hr|slash_next].
  rewrite run_Lit_eq, run_Cap, run_StarSet.
  rewrite star_line by eauto.
  rewrite consumed_line, !consumed_append.
  replace (h +:+ String slash (o +:+ String slash (r +:+ String slash p)))
    with ((h +:+ String slash (o +:+ String slash (r +:+ String slash (line_prefix p))))
          +:+ line_rest p)
    by (now rewrite !append_cons_assoc, <- line_prefix_rest).
  rewrite consumed_append. reflexivity.
Qed.

(** Three segments: no repository, the third segment is the path. *)
Lemma match_here_norepo h o rest :
  no_slash h -> no_slash o -> no_slash rest ->
  match_here parseLineRegex (h +:+ String slash (o +:+ String slash rest))
  = Some [h +:+ String slash (o +:+ String slash (line_prefix rest));
          h; o; ""; line_prefix rest]%string.
Proof.
  intros Hh Ho Hr. unfold match_here, parseLineRegex.
  cbn [num_subexp replicate Nat.add].
  rewrite run_Cap, run_Cat, run_Cap, run_StarSet.
  rewrite star_segment_stop; [|exact Hh|slash_next].
  rewrite run_Cat, run_Lit_eq, run_Cat, run_Cap, run_StarSet.
  rewrite star_segment_stop; [|exact Ho|slash_next].
  rewrite run_Cat, run_Lit_eq, run_Cat, run_Opt.
  rewrite run_Cat at 1. rewrite run_Cap, run_StarSet.
  rewrite star_segment_none;
    [|exact Hr|split; [reflexivity | intros ? ? ?; now apply run_Lit_ne]].
  rewrite run_Cap, run_StarSet.
  rewrite star_line by eauto.
  rewrite consumed_line, !consumed_append.
  replace (h +:+ String slash (o +:+ String slash rest))
    with ((h +:+ String slash (o +:+ String slash (line_prefix rest))) +:+ line_rest rest)
    by (now rewrite !append_cons_assoc, <- line_prefix_rest).
  rewrite consumed_append. reflexivity.
Qed.

(** Fewer than two ['/']: no match starts here. *)
Lemma match_here_none s :
  (slashes s < 2)%nat -> match_here parseLineRegex s = None.
Proof.
  intros H. unfold match_here, parseLineRegex.
  cbn [num_subexp replicate Nat.add].
  rewrite run_Cap, run_Cat, run_Cap, run_StarSet.
  destruct (slashes s) as [|n] eqn:E.
  - apply slashes_zero in E. rewrite star_segment_none; [reflexivity|exact E|slash_next].
  - destruct (slashes_split s) as (h & t & -> & Hh & Hn); [lia|].
    assert (Ht : no_slash t) by (apply slashes_zero; lia).
    rewrite star_segment_stop; [|exact Hh|slash_next].
    rewrite run_Cat, run_Lit_eq, run_Cat, run_Cap, run_StarSet.
    rewrite star_segment_none; [reflexivity|exact Ht|slash_next].
Qed.

Lemma FindStringSubmatch_here re s caps :
  match_here re s = Some caps -> FindStringSubmatch re s = caps.
Proof. intros H. destruct s; simpl; now rewrite H. Qed.

Lemma FindStringSubmatch_none s :
  (slashes s < 2)%nat -> FindStringSubmatch parseLineRegex s = [].
Proof.
  induction s as [|c s IH]; intros H.
  - reflexivity.
  - cbn [FindStringSubmatch]. rewrite match_here_none by exact H.
    apply IH. simpl in H. lia.
Qed.

(** The pattern matches exactly the texts with two ['/'] or more. *)
Lemma FindStringSubmatch_matches s :
  FindStringSubmatch parseLineRegex s <> [] <-> (2 <= slashes s)%nat.
Proof.
  split.
  - intros H. destruct (Nat.lt_ge_cases (slashes s) 2) as [Hlt|]; [|assumption].
    now rewrite FindStringSubmatch_none in H.
  - intros H. destruct (two_slashes_split s H) as (h & o & rest & -> & Hh & Ho).
    destruct (Nat.eq_0_gt_0_cases (slashes rest)) as [E|E].
    + apply slashes_zero in E.
      now rewrite (FindStringSubmatch_here _ _ _ (match_here_norepo h o rest Hh Ho E)).
    + destruct (slashes_split rest) as (r & p & -> & Hr & _); [lia|].
      now rewrite (FindStringSubmatch_here _ _ _ (match_here_repo h o r p Hh Ho Hr)).
Qed.

Lemma all_chars_append p a b :
  all_chars p (a +:+ b) = all_chars p a && all_chars p b.
Proof. induction a as [|c a IH]; simpl; [reflexivity | now rewrite IH, andb_assoc]. Qed.

(** C3, as stated, at four segments of which the third is empty: the
    match succeeds, the repository is empty, and putting the parts
    together loses a ['/']. *)
Lemma round_trip_fails_on_empty_segment :
  ~ (forall s, (2 <= slashes s)%nat ->
       FindStringSubmatch parseLineRegex s <> [] /\
       rebuild_match (FindStringSubmatch parseLineRegex s) = s).
Proof.
  intros H. destruct (H "a/b//c"%string) as [_ E]; [vm_compute; lia|].
  vm_compute in E. discriminate E.
Qed.

(** The path group stops at a line feed: an identifier with one after the
    owner does not come back whole either. *)
Example round_trip_stops_at_line_feed :
  rebuild_match (FindStringSubmatch parseLineRegex ("a/b/c" +:+ String newline "d"))
  = "a/b/c"%string.
Proof. vm_compute. reflexivity. Qed.

(** C3, amended: a file identifier with at least two ['/'] is
    [host/owner/rest] with [host] and [owner] free of ['/']; extraction
    succeeds on it and gives that host and owner.  When [rest] holds no
    line feed and does not begin with ['/'] (the repository segment, if
    there is one, is not empty), the parts put together give the
    identifier back.  When [rest] is a single segment, the repository is
    empty and the path is [rest] (up to its first line feed). *)
Theorem extraction_round_trip (s : string) :
  (2 <= slashes s)%nat ->
  let m := FindStringSubmatch parseLineRegex s in
  exists h o rest,
    s = h +:+ String slash (o +:+ String slash rest) /\
    no_slash h /\ no_slash o /\
    length m = 5%nat /\
    index m hostPosition = h /\ index m ownerPosition = o /\
    (no_newline rest -> (forall t, rest <> String slash t) -> rebuild_match m = s) /\
    (no_slash rest ->
       index m repoPosition = ""%string /\
       index m pathPosition = line_prefix rest /\
       (no_newline rest -> index m pathPosition = rest)).
Proof.
  intros H m. subst m.
  destruct (two_slashes_split s H) as (h & o & rest & -> & Hh & Ho).
  exists h, o, rest. split; [reflexivity|]. split; [exact Hh|]. split; [exact Ho|].
  destruct (Nat.eq_0_gt_0_cases (slashes rest)) as [E|E].
  - apply slashes_zero in E.
    rewrite (FindStringSubmatch_here _ _ _ (match_here_norepo h o rest Hh Ho E)).
    split; [reflexivity|]. split; [reflexivity|]. split; [reflexivity|].
    split; [|intros _; split; [reflexivity|]; split; [reflexivity|]].
    + intros Hnl _. unfold rebuild_match, rebuild. cbn [index nth hostPosition
        ownerPosition repoPosition pathPosition].
      destruct (no_newline_line_prefix rest Hnl) as [-> _]. reflexivity.
    + intros Hnl. cbn [index nth pathPosition].
      now destruct (no_newline_line_prefix rest Hnl) as [-> _].
  - destruct (slashes_split rest) as (r & p & -> & Hr & Hn); [lia|].
    rewrite (FindStringSubmatch_here _ _ _ (match_here_repo h o r p Hh Ho Hr)).
    split; [reflexivity|]. split; [reflexivity|]. split; [reflexivity|]. split.
    + intros Hnl Hne. unfold rebuild_match, rebuild. cbn [index nth hostPosition
        ownerPosition repoPosition pathPosition].
      assert (Hp : no_newline p).
      { unfold no_newline in *. rewrite all_chars_append in Hnl.
        apply andb_true_iff in Hnl as [_ Hnl]. simpl in Hnl. exact Hnl. }
      destruct (no_newline_line_prefix p Hp) as [-> _].
      destruct r as [|c r]; [now destruct (Hne p)|].
      cbn [String.eqb]. simpl. now rewrite append_cons_assoc.
    + intros Hs. apply slashes_zero in Hs. lia.
Qed.

Lemma extraction_round_trip_witness :
  let m := FindStringSubmatch parseLineRegex "github.com/org/file.go" in
  exists h o rest,
    "github.com/org/file.go"%string = h +:+ String slash (o +:+ String slash rest) /\
    no_slash h /\ no_slash o /\
    length m = 5%nat /\
    index m hostPosition = h /\ index m ownerPosition = o /\
    (no_newline rest -> (forall t, rest <> String slash t) ->
     rebuild_match m = "github.com/org/file.go"%string) /\
    (no_slash rest ->
       index m repoPosition = ""%string /\
       index m pathPosition = line_prefix rest /\
       (no_newline rest -> index m pathPosition = rest)).
Proof.
  apply (extraction_round_trip "github.com/org/file.go"). vm_compute. lia.
Defined.

(** ** Parse *)

Lemma parse_profiles_matched before : forall rest coverage,
  Forall (fun q => FindStringSubmatch parseLineRegex (ProfileFileName q) <> []) before ->
  exists coverage',
    parse_profiles (before ++ rest) coverage = parse_profiles rest coverage'.
Proof.
  induction before as [|q before IH]; intros rest coverage H.
  - now exists coverage.
  - apply Forall_cons in H as [Hq H]. cbn [app parse_profiles].
    destruct (FindStringSubmatch parseLineRegex (ProfileFileName q)) as [|x m] eqn:E;
      [congruence|].
    cbn [length Nat.eqb]. apply IH, H.
Qed.

(** C4: when the profiles before [p] match the pattern and the file
    identifier of [p] does not (as is the case of every identifier without
    ['/']), [Parse] returns no records and [ErrInvalidCoverageData]
    wrapped with that identifier, whatever the profiles after [p]. *)
Theorem parse_fails_on_first_unmatched
    (TrimSpace : string -> string)
    (ParseProfilesFromReader : string -> list Profile + string)
    (coverageData : string) (before : list Profile) (p : Profile)
    (after : list Profile) :
  ParseProfilesFromReader (TrimSpace coverageData) = inl (before ++ p :: after) ->
  Forall (fun q => FindStringSubmatch parseLineRegex (ProfileFileName q) <> []) before ->
  FindStringSubmatch parseLineRegex (ProfileFileName p) = [] \/
    slashes (ProfileFileName p) = 0%nat ->
  Parse TrimSpace ParseProfilesFromReader coverageData
  = ([], Some (invalid_file_name (ProfileFileName p))).
Proof.
  intros Hparse Hbefore Hp. unfold Parse. rewrite Hparse.
  assert (Hm : FindStringSubmatch parseLineRegex (ProfileFileName p) = []).
  { destruct Hp as [Hp|Hp]; [exact Hp|]. apply FindStringSubmatch_none. lia. }
  destruct (length (before ++ p :: after) =? 0)%nat eqn:El.
  - apply Nat.eqb_eq in El. rewrite length_app in El. simpl in El. lia.
  - destruct (parse_profiles_matched before (p :: after) [] Hbefore) as [cov ->].
    cbn [parse_profiles]. rewrite Hm. reflexivity.
Qed.

Lemma parse_fails_on_first_unmatched_witness :
  Parse (fun s => s)
        (profiles_reader [ {| ProfileFileName := "github.com/org/repo/a.go";
                              ProfileBlocks := [block_of 1 1] |};
                           {| ProfileFileName := "b.go";
                              ProfileBlocks := [block_of 1 0] |};
                           {| ProfileFileName := "github.com/org/repo/c.go";
                              ProfileBlocks := [] |} ])
        "mode: set"
  = ([], Some (invalid_file_name "b.go")).
Proof.
  apply (parse_fails_on_first_unmatched (fun s => s) _ "mode: set"
           [ {| ProfileFileName := "github.com/org/repo/a.go";
                ProfileBlocks := [block_of 1 1] |} ]
           {| ProfileFileName := "b.go"; ProfileBlocks := [block_of 1 0] |}
           [ {| ProfileFileName := "github.com/org/repo/c.go";
                ProfileBlocks := [] |} ]).
  - reflexivity.
  - apply Forall_cons. split; [|apply Forall_nil; exact I].
    vm_compute. intros H. discriminate H.
  - right. reflexivity.
Defined.

(** C7: when the profile parser gives no profile for the trimmed text,
    [Parse] returns the empty sequence and no error. *)
Theorem parse_no_profiles
    (TrimSpace : string -> string)
    (ParseProfilesFromReader : string -> list Profile + string)
    (coverageData : string) :
  ParseProfilesFromReader (TrimSpace coverageData) = inl [] ->
  Parse TrimSpace ParseProfilesFromReader coverageData = ([], None).
Proof. intros H. unfold Parse. now rewrite H. Qed.

Lemma parse_no_profiles_witness :
  Parse trim_blanks (profiles_reader []) (String newline (String " " (String newline "")))
  = ([], None).
Proof.
  apply (parse_no_profiles trim_blanks (profiles_reader [])
           (String newline (String " " (String newline "")))).
  reflexivity.
Defined.

(** ** Rounding to binary64 *)

Lemma digits2_pos_bounds p :
  2 ^ (Zpos (digits2_pos p) - 1) <= Zpos p < 2 ^ Zpos (digits2_pos p).
Proof.
  induction p as [p IH|p IH|]; cbn [digits2_pos].
  - rewrite Pos2Z.inj_succ, Z.pow_succ_r by lia.
    replace (Z.succ (Zpos (digits2_pos p)) - 1) with (Z.succ (Zpos (digits2_pos p) - 1)) by lia.
    rewrite Z.pow_succ_r by lia. lia.
  - rewrite Pos2Z.inj_succ, Z.pow_succ_r by lia.
    replace (Z.succ (Zpos (digits2_pos p)) - 1) with (Z.succ (Zpos (digits2_pos p) - 1)) by lia.
    rewrite Z.pow_succ_r by lia. lia.
  - simpl. lia.
Qed.

Lemma digits2_pos_unique p d :
  2 ^ (d - 1) <= Zpos p < 2 ^ d -> Zpos (digits2_pos p) = d.
Proof.
  intros [H1 H2]. pose proof (digits2_pos_bounds p) as [H3 H4].
  set (d' := Zpos (digits2_pos p)) in *.
  assert (0 < d).
  { destruct (Z_lt_le_dec 0 d); [assumption|].
    exfalso. destruct (Z.eq_dec d 0) as [->|]; [simpl in H2; lia|].
    rewrite Z.pow_neg_r in H2 by lia. lia. }
  destruct (Z.lt_trichotomy d' d) as [Hlt|[Heq|Hgt]]; [|assumption|].
  - assert (2 ^ d' <= 2 ^ (d - 1)) by (apply Z.pow_le_mono_r; lia). lia.
  - assert (2 ^ d <= 2 ^ (d' - 1)) by (apply Z.pow_le_mono_r; lia). lia.
Qed.

Lemma fexp_normal e :
  -1021 <= e -> fexp GoFloat.prec GoFloat.emax e = e - 53.
Proof. unfold fexp, emin, GoFloat.prec, GoFloat.emax. lia. Qed.

Lemma shr_1_nonneg m r s :
  0 <= m ->
  shr_1 {| shr_m := m; shr_r := r; shr_s := s |}
  = {| shr_m := m / 2; shr_r := Z.odd m; shr_s := r || s |}.
Proof.
  intros H. destruct m as [|p|p]; [reflexivity| |lia].
  destruct p as [p|p|]; cbn [shr_1].
  - replace (Zpos p~1 / 2) with (Zpos p)
      by (apply Z.div_unique with 1; lia).
    reflexivity.
  - replace (Zpos p~0 / 2) with (Zpos p)
      by (apply Z.div_unique with 0; lia).
    reflexivity.
  - reflexivity.
Qed.

Lemma round_nearest_even_bounds m l :
  m <= round_nearest_even m l <= m + 1.
Proof.
  destruct l as [|[]]; cbn [round_nearest_even]; try lia.
  destruct (Z.even m); lia.
Qed.

Lemma shr_m_shr_1 st : 0 <= shr_m st -> shr_m (shr_1 st) = shr_m st / 2.
Proof. destruct st as [m r s]. cbn [shr_m]. intros H. now rewrite shr_1_nonneg. Qed.

Lemma shr_m_iter p : forall st,
  0 <= shr_m st -> shr_m (SpecFloat.iter_pos shr_1 p st) = shr_m st / 2 ^ Zpos p.
Proof.
  assert (Hdiv : forall a x y, 0 < x -> 0 < y -> a / 2 ^ x / 2 ^ y = a / 2 ^ (x + y)).
  { intros a x y Hx Hy.
    assert (0 < 2 ^ x) by (apply Z.pow_pos_nonneg; lia).
    assert (0 < 2 ^ y) by (apply Z.pow_pos_nonneg; lia).
    rewrite Z.pow_add_r by lia. rewrite Z.div_div by lia. reflexivity. }
  assert (Hnn : forall a x, 0 <= a -> 0 <= x -> 0 <= a / 2 ^ x).
  { intros a x Ha Hx. apply Z.div_pos; [lia|]. apply Z.pow_pos_nonneg; lia. }
  induction p as [p IH|p IH|]; intros st H; cbn [SpecFloat.iter_pos].
  - assert (H1 : 0 <= shr_m (shr_1 st))
      by (rewrite shr_m_shr_1 by exact H; apply Z.div_pos; lia).
    rewrite IH by (rewrite IH by exact H1; apply Hnn; lia).
    rewrite IH by exact H1. rewrite shr_m_shr_1 by exact H.
    change (shr_m st / 2) with (shr_m st / 2 ^ 1).
    rewrite !Hdiv by lia. f_equal. f_equal. lia.
  - rewrite IH by (rewrite IH by exact H; apply Hnn; lia).
    rewrite IH by exact H.
    rewrite Hdiv by lia. f_equal. f_equal. lia.
  - now apply shr_m_shr_1.
Qed.

Lemma shifted_start n :
  0 <= n -> shifted n 0 {| shr_m := n; shr_r := false; shr_s := false |}.
Proof.
  intros H. split; [exact H|]. exists 0. cbn [shr_m shr_r shr_s]. simpl. lia.
Qed.

Lemma shifted_step n j st :
  0 <= j -> shifted n j st -> shifted n (j + 1) (shr_1 st).
Proof.
  intros Hj [Hm (t & Ht & E & Hs)]. destruct st as [m r s].
  cbn [shr_m shr_r shr_s] in *. rewrite shr_1_nonneg by exact Hm.
  unfold shifted. cbn [shr_m shr_r shr_s].
  assert (Hp : 0 < 2 ^ j) by (apply Z.pow_pos_nonneg; lia).
  replace (2 ^ (j + 1 + 1)) with (4 * 2 ^ j)
    by (rewrite !Z.pow_add_r by lia; change (2 ^ 1) with 2; lia).
  replace (2 ^ (j + 1)) with (2 * 2 ^ j) in *
    by (rewrite !Z.pow_add_r by lia; change (2 ^ 1) with 2; lia).
  pose proof (Z.div_mod m 2 ltac:(lia)) as Hd.
  pose proof (Zmod_odd m) as Ho.
  set (P := 2 ^ j) in *. set (q := m / 2) in *.
  split; [subst q; apply Z.div_pos; lia|].
  exists ((if r then P else 0) + t). split; [destruct r; lia|]. split.
  - destruct (Z.odd m); destruct r; nia.
  - destruct r; cbn [orb].
    + symmetry. apply negb_true_iff, Z.eqb_neq. lia.
    + exact Hs.
Qed.

Lemma shifted_iter n p : forall j st,
  0 <= j -> shifted n j st -> shifted n (j + Zpos p) (SpecFloat.iter_pos shr_1 p st).
Proof.
  induction p as [p IH|p IH|]; intros j st Hj H; cbn [SpecFloat.iter_pos].
  - replace (j + Zpos p~1) with (j + 1 + Zpos p + Zpos p) by lia.
    apply IH; [lia|]. apply IH; [lia|]. now apply shifted_step.
  - replace (j + Zpos p~0) with (j + Zpos p + Zpos p) by lia.
    apply IH; [lia|]. now apply IH.
  - now apply shifted_step.
Qed.

Lemma shr_m_of_loc m l : shr_m (shr_record_of_loc m l) = m.
Proof. destruct l as [|[]]; reflexivity. Qed.

Lemma loc_of_loc m l : loc_of_shr_record (shr_record_of_loc m l) = l.
Proof. destruct l as [|[]]; reflexivity. Qed.

Lemma shr_fexp_normal p k ex lx :
  Zpos (digits2_pos p) = 53 + k -> -1074 <= ex + k ->
  shr_fexp GoFloat.prec GoFloat.emax (Zpos p) ex lx
  = shr (shr_record_of_loc (Zpos p) lx) ex k.
Proof.
  intros Hd He. unfold shr_fexp. cbn [Zdigits2]. rewrite Hd.
  replace (fexp GoFloat.prec GoFloat.emax (53 + k + ex) - ex) with k; [reflexivity|].
  unfold fexp, emin, GoFloat.prec, GoFloat.emax. lia.
Qed.

(** The quotient left by the shifter is a full significand. *)
Lemma shr_m_normal p k ex lx :
  Zpos (digits2_pos p) = 53 + k -> 0 <= k ->
  2 ^ 52 <= shr_m (fst (shr (shr_record_of_loc (Zpos p) lx) ex k)) < 2 ^ 53.
Proof.
  intros Hd Hk. pose proof (digits2_pos_bounds p) as Hb. rewrite Hd in Hb.
  destruct k as [|kp|kp]; [| |lia]; cbn [shr fst].
  - rewrite shr_m_of_loc. replace (53 + 0 - 1) with 52 in Hb by lia.
    replace (53 + 0) with 53 in Hb by lia. exact Hb.
  - rewrite shr_m_iter by (rewrite shr_m_of_loc; lia). rewrite shr_m_of_loc.
    replace (53 + Zpos kp - 1) with (52 + Zpos kp) in Hb by lia.
    rewrite !Z.pow_add_r in Hb by lia.
    assert (0 < 2 ^ Zpos kp) by (apply Z.pow_pos_nonneg; lia).
    split.
    + apply Z.div_le_lower_bound; lia.
    + apply Z.div_lt_upper_bound; lia.
Qed.

Lemma finish_round sx m e :
  2 ^ 52 <= m <= 2 ^ 53 -> -1074 <= e <= 970 ->
  (let '(mrs, e') := shr_fexp GoFloat.prec GoFloat.emax m e loc_Exact in
   match shr_m mrs with
   | Z0 => S754_zero sx
   | Zpos m' =>
       if e' <=? GoFloat.emax - GoFloat.prec then S754_finite sx m' e'
       else S754_infinity sx
   | Zneg _ => S754_nan
   end) = rounded sx m e.
Proof.
  intros Hm He. unfold rounded.
  destruct m as [|p|p]; [lia| |lia].
  destruct (Zpos p <? 2 ^ 53) eqn:E.
  - apply Z.ltb_lt in E.
    rewrite (shr_fexp_normal p 0) by
      (try lia; rewrite (digits2_pos_unique p 53); lia).
    cbn [shr shr_record_of_loc shr_m].
    replace (e <=? GoFloat.emax - GoFloat.prec) with true
      by (symmetry; apply Z.leb_le; unfold GoFloat.emax, GoFloat.prec; lia).
    reflexivity.
  - apply Z.ltb_ge in E. assert (Hp : Zpos p = 2 ^ 53) by lia.
    injection Hp as ->.
    rewrite (shr_fexp_normal _ 1) by (try lia; reflexivity).
    cbn [shr shr_record_of_loc SpecFloat.iter_pos shr_1 shr_m].
    replace (e + 1 <=? GoFloat.emax - GoFloat.prec) with true
      by (symmetry; apply Z.leb_le; unfold GoFloat.emax, GoFloat.prec; lia).
    reflexivity.
Qed.

(** [binary_round_aux] on a significand of [53 + k] bits: [k] shifts, the
    rounding of the quotient, and one more shift if that gave [2 ^ 53]. *)
Lemma binary_round_aux_normal sx p k ex lx :
  Zpos (digits2_pos p) = 53 + k -> 0 <= k -> -1074 <= ex + k <= 970 ->
  binary_round_aux GoFloat.prec GoFloat.emax sx (Zpos p) ex lx
  = let st := fst (shr (shr_record_of_loc (Zpos p) lx) ex k) in
    rounded sx (round_nearest_even (shr_m st) (loc_of_shr_record st)) (ex + k).
Proof.
  intros Hd Hk He. unfold binary_round_aux.
  rewrite (shr_fexp_normal p k) by (assumption || lia).
  pose proof (shr_m_normal p k ex lx Hd Hk) as Hq.
  destruct (shr (shr_record_of_loc (Zpos p) lx) ex k) as [st e'] eqn:Es.
  assert (He' : e' = ex + k).
  { destruct k as [|kp|kp]; [| |lia]; cbn [shr] in Es; inversion Es; lia. }
  subst e'. cbn [fst] in *. cbn zeta.
  pose proof (round_nearest_even_bounds (shr_m st) (loc_of_shr_record st)).
  apply finish_round; lia.
Qed.

Lemma iter_xO_value d : forall p, Zpos (Pos.iter xO p d) = Zpos p * 2 ^ Zpos d.
Proof.
  induction d as [|d IH] using Pos.peano_ind; intros p.
  - cbn [Pos.iter]. rewrite Pos2Z.inj_xO. change (2 ^ 1) with 2. lia.
  - rewrite Pos.iter_succ, Pos2Z.inj_xO, IH, Pos2Z.inj_succ, Z.pow_succ_r by lia.
    lia.
Qed.

Lemma rounded_normal m e :
  2 ^ 52 <= m <= 2 ^ 53 -> -52 <= e <= 10 ->
  normal (rounded false m e) /\ scaled (rounded false m e) = m * 2 ^ (e + 52).
Proof.
  intros Hm He. unfold rounded. destruct (m <? 2 ^ 53) eqn:E.
  - apply Z.ltb_lt in E. split.
    + exists (Z.to_pos m), e. rewrite Z2Pos.id by lia. split; [reflexivity | lia].
    + cbn [scaled]. rewrite Z2Pos.id by lia. reflexivity.
  - apply Z.ltb_ge in E. assert (m = 2 ^ 53) as -> by lia. split.
    + exists (2 ^ 52)%positive, (e + 1). split; [reflexivity | lia].
    + cbn [scaled]. replace (e + 1 + 52) with (Z.succ (e + 52)) by lia.
      rewrite Z.pow_succ_r by lia. lia.
Qed.

(** Integers of at most 53 bits are represented exactly. *)
Lemma of_int_small n :
  0 < n < 2 ^ 53 ->
  normal (GoFloat.of_int n) /\ scaled (GoFloat.of_int n) = n * 2 ^ 52.
Proof.
  intros Hn. destruct n as [|p|p]; [lia| |lia].
  unfold GoFloat.of_int. cbn [binary_normalize]. unfold binary_round.
  pose proof (digits2_pos_bounds p) as Hb. set (d := Zpos (digits2_pos p)) in *.
  assert (Hd : 1 <= d <= 53).
  { split; [subst d; lia|]. destruct (Z_le_gt_dec d 53); [assumption|].
    assert (2 ^ 53 <= 2 ^ (d - 1)) by (apply Z.pow_le_mono_r; lia). lia. }
  rewrite Z.add_0_r, fexp_normal by lia. unfold shl_align.
  destruct (d - 53 - 0) as [|dd|dd] eqn:Edd; [|lia|].
  - assert (d = 53) by lia.
    rewrite (binary_round_aux_normal false p 0) by (fold d; lia).
    cbn [shr shr_record_of_loc fst shr_m loc_of_shr_record round_nearest_even].
    rewrite Z.add_0_l.
    assert (Hb' : 2 ^ 52 <= Zpos p).
    { replace 52 with (d - 1) by lia. apply Hb. }
    destruct (rounded_normal (Zpos p) 0) as [Hnorm Hsc]; [lia | lia |].
    split; [exact Hnorm | exact Hsc].
  - assert (Hdd : Zpos dd = 53 - d) by lia.
    pose proof (iter_xO_value dd p) as Hv. set (mz := Pos.iter xO p dd) in *.
    assert (Hp : 0 < 2 ^ Zpos dd) by (apply Z.pow_pos_nonneg; lia).
    assert (Hmz : 2 ^ 52 <= Zpos mz < 2 ^ 53).
    { rewrite Hv. replace 52 with ((d - 1) + Zpos dd) by lia.
      replace 53 with (d + Zpos dd) by lia. rewrite !Z.pow_add_r by lia.
      split; [apply Z.mul_le_mono_nonneg_r | apply Z.mul_lt_mono_pos_r]; lia. }
    rewrite (binary_round_aux_normal false mz 0)
      by (try lia; rewrite (digits2_pos_unique mz 53); lia).
    cbn [shr shr_record_of_loc fst shr_m loc_of_shr_record round_nearest_even].
    rewrite Z.add_0_r.
    destruct (rounded_normal (Zpos mz) (d - 53)) as [Hnorm Hsc]; [lia | lia |].
    split; [exact Hnorm|]. rewrite Hsc, Hv.
    replace (d - 53 + 52) with (d - 1) by lia.
    assert (E : 2 ^ 52 = 2 ^ Zpos dd * 2 ^ (d - 1))
      by (rewrite <- Z.pow_add_r by lia; f_equal; lia).
    rewrite E. ring.
Qed.

(** Larger integers are shifted and rounded to the nearest, ties to even. *)
Lemma of_int_large n :
  2 ^ 53 <= n < 2 ^ 63 ->
  exists k st,
    1 <= k <= 10 /\ 2 ^ (52 + k) <= n < 2 ^ (53 + k) /\
    shifted n k st /\ 2 ^ 52 <= shr_m st < 2 ^ 53 /\
    GoFloat.of_int n
    = rounded false (round_nearest_even (shr_m st) (loc_of_shr_record st)) k.
Proof.
  intros Hn. destruct n as [|p|p]; [lia| |lia].
  pose proof (digits2_pos_bounds p) as Hb. set (d := Zpos (digits2_pos p)) in *.
  assert (Hd : 54 <= d <= 63).
  { split.
    - destruct (Z_le_gt_dec 54 d); [assumption|].
      assert (2 ^ d <= 2 ^ 53) by (apply Z.pow_le_mono_r; lia). lia.
    - destruct (Z_le_gt_dec d 63); [assumption|].
      assert (2 ^ 63 <= 2 ^ (d - 1)) by (apply Z.pow_le_mono_r; lia). lia. }
  exists (d - 53), (fst (shr (shr_record_of_loc (Zpos p) loc_Exact) 0 (d - 53))).
  split; [lia|]. split.
  { replace (52 + (d - 53)) with (d - 1) by lia.
    replace (53 + (d - 53)) with d by lia. exact Hb. }
  split.
  { destruct (d - 53) as [|kp|kp] eqn:Ek; [lia| |lia]. cbn [shr fst shr_record_of_loc].
    apply (shifted_iter (Zpos p) kp 0); [lia|]. apply shifted_start. lia. }
  split.
  { apply shr_m_normal; [fold d|]; lia. }
  unfold GoFloat.of_int. cbn [binary_normalize]. unfold binary_round.
  fold d. rewrite Z.add_0_r, fexp_normal by lia. unfold shl_align.
  destruct (d - 53 - 0) as [|dd|dd] eqn:Edd; [lia| |lia].
  rewrite (binary_round_aux_normal false p (d - 53)) by (try fold d; lia).
  cbn zeta. rewrite Z.add_0_l. reflexivity.
Qed.

(** Rounding to the nearest (ties to even) after the same number of
    shifts is monotone. *)
Lemma round_shifted_mono n1 n2 k st1 st2 :
  0 <= k -> shifted n1 k st1 -> shifted n2 k st2 -> n1 <= n2 ->
  round_nearest_even (shr_m st1) (loc_of_shr_record st1)
  <= round_nearest_even (shr_m st2) (loc_of_shr_record st2).
Proof.
  intros Hk [Hm1 (t1 & Ht1 & E1 & Hs1)] [Hm2 (t2 & Ht2 & E2 & Hs2)] Hn.
  pose proof (round_nearest_even_bounds (shr_m st1) (loc_of_shr_record st1)) as B1.
  pose proof (round_nearest_even_bounds (shr_m st2) (loc_of_shr_record st2)) as B2.
  assert (Hp : 0 < 2 ^ k) by (apply Z.pow_pos_nonneg; lia).
  replace (2 ^ (k + 1)) with (2 * 2 ^ k) in *
    by (rewrite Z.pow_add_r by lia; change (2 ^ 1) with 2; lia).
  set (P := 2 ^ k) in *.
  destruct st1 as [m1 r1 s1], st2 as [m2 r2 s2]. cbn [shr_m shr_r shr_s] in *.
  assert (Hle : m1 <= m2).
  { destruct (Z_le_gt_dec m1 m2); [assumption|]. exfalso.
    assert (m2 + 1 <= m1) by lia.
    assert ((m2 + 1) * (2 * P) <= m1 * (2 * P)) by (apply Z.mul_le_mono_nonneg_r; lia).
    destruct r1, r2; lia. }
  destruct (Z.eq_dec m1 m2) as [->|Hne]; [|lia].
  clear B1 B2 Hle. set (X := m2 * (2 * P)) in *.
  assert (Ht1' : (t1 =? 0) = true -> t1 = 0) by (apply Z.eqb_eq).
  assert (Ht1'' : (t1 =? 0) = false -> t1 <> 0) by (apply Z.eqb_neq).
  assert (Ht2' : (t2 =? 0) = true -> t2 = 0) by (apply Z.eqb_eq).
  assert (Ht2'' : (t2 =? 0) = false -> t2 <> 0) by (apply Z.eqb_neq).
  subst s1 s2.
  destruct r1, r2, (t1 =? 0), (t2 =? 0);
    cbn [negb loc_of_shr_record round_nearest_even];
    try specialize (Ht1' eq_refl); try specialize (Ht1'' eq_refl);
    try specialize (Ht2' eq_refl); try specialize (Ht2'' eq_refl);
    destruct (Z.even m2); lia.
Qed.

Lemma of_int_normal n :
  0 < n < 2 ^ 63 -> normal (GoFloat.of_int n).
Proof.
  intros Hn. destruct (Z_lt_le_dec n (2 ^ 53)) as [Hs|Hl].
  - apply of_int_small. lia.
  - destruct (of_int_large n) as (k & st & Hk & _ & _ & Hm & ->); [lia|].
    pose proof (round_nearest_even_bounds (shr_m st) (loc_of_shr_record st)).
    apply rounded_normal; lia.
Qed.

(** [float64(n)] is monotone on the positive integers. *)
Lemma of_int_mono n1 n2 :
  0 < n1 -> n1 <= n2 -> n2 < 2 ^ 63 ->
  scaled (GoFloat.of_int n1) <= scaled (GoFloat.of_int n2).
Proof.
  intros H1 H12 H2.
  destruct (Z_lt_le_dec n2 (2 ^ 53)) as [Hs2|Hl2].
  - destruct (of_int_small n1) as [_ ->]; [lia|].
    destruct (of_int_small n2) as [_ ->]; [lia|]. lia.
  - destruct (of_int_large n2) as (k2 & st2 & Hk2 & Hb2 & Hsh2 & Hm2 & ->); [lia|].
    pose proof (round_nearest_even_bounds (shr_m st2) (loc_of_shr_record st2)) as B2.
    destruct (rounded_normal (round_nearest_even (shr_m st2) (loc_of_shr_record st2)) k2)
      as [_ ->]; [lia | lia |].
    assert (Hp2 : 2 ^ 53 <= 2 ^ (k2 + 52)) by (apply Z.pow_le_mono_r; lia).
    destruct (Z_lt_le_dec n1 (2 ^ 53)) as [Hs1|Hl1].
    + destruct (of_int_small n1) as [_ ->]; [lia|]. nia.
    + destruct (of_int_large n1) as (k1 & st1 & Hk1 & Hb1 & Hsh1 & Hm1 & ->); [lia|].
      pose proof (round_nearest_even_bounds (shr_m st1) (loc_of_shr_record st1)) as B1.
      destruct (rounded_normal (round_nearest_even (shr_m st1) (loc_of_shr_record st1)) k1)
        as [_ ->]; [lia | lia |].
      assert (Hk : k1 <= k2).
      { destruct (Z_le_gt_dec k1 k2); [assumption|]. exfalso.
        assert (2 ^ (53 + k2) <= 2 ^ (52 + k1)) by (apply Z.pow_le_mono_r; lia). lia. }
      destruct (Z.eq_dec k1 k2) as [->|Hne].
      * apply Z.mul_le_mono_nonneg_r; [apply Z.pow_nonneg; lia|].
        apply (round_shifted_mono n1 n2 k2); (assumption || lia).
      * assert (Hpow : 2 * 2 ^ (k1 + 52) <= 2 ^ (k2 + 52)).
        { replace (2 * 2 ^ (k1 + 52)) with (2 ^ (k1 + 52 + 1))
            by (rewrite Z.pow_add_r by lia; change (2 ^ 1) with 2; lia).
          apply Z.pow_le_mono_r; lia. }
        assert (0 < 2 ^ (k1 + 52)) by (apply Z.pow_pos_nonneg; lia).
        nia.
Qed.

(** ** Quotients in the unit interval *)

Lemma in_unit_finite m e :
  e < -52 \/ (e = -52 /\ m = (2 ^ 52)%positive) ->
  GoFloat.in_unit (S754_finite false m e) = true.
Proof.
  unfold GoFloat.in_unit, GoFloat.leb, GoFloat.zero, GoFloat.one, SFleb.
  cbn [SFcompare andb]. intros [H|[-> ->]].
  - apply Z.compare_lt_iff in H. rewrite H. reflexivity.
  - reflexivity.
Qed.

Lemma in_unit_rounded m e :
  2 ^ 52 <= m <= 2 ^ 53 ->
  e <= -53 \/ (e = -52 /\ m = 2 ^ 52) ->
  GoFloat.in_unit (rounded false m e) = true.
Proof.
  intros Hm He. unfold rounded. destruct (m <? 2 ^ 53) eqn:E.
  - apply in_unit_finite. destruct He as [He|[-> ->]]; [left; lia|].
    right. split; reflexivity.
  - apply Z.ltb_ge in E. apply in_unit_finite.
    destruct He as [He|[_ ->]]; [|lia].
    destruct (Z.eq_dec e (-53)) as [->|]; [right; split; reflexivity | left; lia].
Qed.

(** Normal floats compare as their scaled values do. *)
Lemma scaled_order m1 e1 m2 e2 :
  2 ^ 52 <= m1 < 2 ^ 53 -> 2 ^ 52 <= m2 < 2 ^ 53 -> -52 <= e1 -> -52 <= e2 ->
  m1 * 2 ^ (e1 + 52) <= m2 * 2 ^ (e2 + 52) ->
  e1 < e2 \/ (e1 = e2 /\ m1 <= m2).
Proof.
  intros H1 H2 He1 He2 H.
  assert (Hp2 : 0 < 2 ^ (e2 + 52)) by (apply Z.pow_pos_nonneg; lia).
  destruct (Z.lt_trichotomy e1 e2) as [Hlt|[->|Hgt]]; [now left| |].
  - right. split; [reflexivity|]. apply Z.mul_le_mono_pos_r in H; assumption.
  - exfalso.
    assert (Hpow : 2 * 2 ^ (e2 + 52) <= 2 ^ (e1 + 52)).
    { replace (2 * 2 ^ (e2 + 52)) with (2 ^ (e2 + 52 + 1))
        by (rewrite Z.pow_add_r by lia; change (2 ^ 1) with 2; lia).
      apply Z.pow_le_mono_r; lia. }
    nia.
Qed.

Lemma new_location_exact m : new_location m 0 = loc_Exact.
Proof.
  unfold new_location, new_location_even, new_location_odd.
  destruct (Z.even m); reflexivity.
Qed.

(** The quotient of a normal float by one that is not smaller lies
    between [0.0] and [1.0]. *)
Lemma div_in_unit x y :
  normal x -> normal y -> scaled x <= scaled y ->
  GoFloat.in_unit (GoFloat.div x y) = true.
Proof.
  intros (m1 & e1 & -> & Hm1 & He1) (m2 & e2 & -> & Hm2 & He2) Hle.
  cbn [scaled] in Hle.
  assert (Hord : e1 < e2 \/ (e1 = e2 /\ Zpos m1 <= Zpos m2))
    by (apply scaled_order; (assumption || lia)).
  unfold GoFloat.div. cbn [SFdiv xorb]. unfold SFdiv_core_binary. cbn [Zdigits2].
  rewrite (digits2_pos_unique m1 53), (digits2_pos_unique m2 53) by lia.
  rewrite fexp_normal by lia.
  replace (Z.min (53 + e1 - (53 + e2) - 53) (e1 - e2)) with (e1 - e2 - 53) by lia.
  replace (e1 - e2 - (e1 - e2 - 53)) with 53 by lia.
  rewrite Z.shiftl_mul_pow2 by lia.
  set (a := Zpos m1 * 2 ^ 53).
  pose proof (Z.div_mod a (Zpos m2) ltac:(lia)) as Hdm.
  pose proof (Z.mod_pos_bound a (Zpos m2) ltac:(lia)) as Hr.
  unfold Z.div, Z.modulo in Hdm, Hr.
  destruct (Z.div_eucl a (Zpos m2)) as [q r] eqn:Eqr. cbn [fst snd] in Hdm, Hr.
  assert (Hq : 2 ^ 52 <= q < 2 ^ 54) by (subst a; nia).
  destruct q as [|qp|qp]; [lia| |lia].
  pose proof (digits2_pos_bounds qp) as Hb.
  set (d := Zpos (digits2_pos qp)) in *.
  assert (Hd : 53 <= d <= 54).
  { split.
    - destruct (Z_le_gt_dec 53 d); [assumption|].
      assert (2 ^ d <= 2 ^ 52) by (apply Z.pow_le_mono_r; lia). lia.
    - destruct (Z_le_gt_dec d 54); [assumption|].
      assert (2 ^ 54 <= 2 ^ (d - 1)) by (apply Z.pow_le_mono_r; lia). lia. }
  rewrite (binary_round_aux_normal false qp (d - 53)) by (try fold d; lia).
  cbn zeta.
  pose proof (shr_m_normal qp (d - 53) (e1 - e2 - 53) (new_location (Zpos m2) r)
                ltac:(fold d; lia) ltac:(lia)) as Hst.
  set (st := fst (shr (shr_record_of_loc (Zpos qp) (new_location (Zpos m2) r))
                      (e1 - e2 - 53) (d - 53))) in *.
  pose proof (round_nearest_even_bounds (shr_m st) (loc_of_shr_record st)) as Hrne.
  apply in_unit_rounded; [lia|].
  destruct Hord as [Hlt|[-> Hm]]; [left; lia|].
  destruct (Z.eq_dec (Zpos m1) (Zpos m2)) as [Heq|Hne].
  - right. injection Heq as ->. subst a.
    assert (Hx : Zpos m2 * (2 ^ 53 - Zpos qp) = r) by lia.
    assert (Hq2 : Zpos qp = 2 ^ 53).
    { destruct (Z.lt_trichotomy (Zpos qp) (2 ^ 53)) as [Hc|[Hc|Hc]]; [|exact Hc|].
      - assert (Zpos m2 * 1 <= Zpos m2 * (2 ^ 53 - Zpos qp))
          by (apply Z.mul_le_mono_nonneg_l; lia). lia.
      - assert (Zpos m2 * (2 ^ 53 - Zpos qp) <= Zpos m2 * (-1))
          by (apply Z.mul_le_mono_nonneg_l; lia). lia. }
    assert (r = 0) as -> by (rewrite Hq2 in Hx; lia).
    assert (Hd54 : d = 54) by (apply digits2_pos_unique; lia).
    split; [lia|]. subst st. rewrite Hd54, new_location_exact.
    injection Hq2 as ->. reflexivity.
  - left. assert (Hq53 : Zpos qp < 2 ^ 53).
    { destruct (Z_lt_le_dec (Zpos qp) (2 ^ 53)) as [Hc|Hc]; [exact Hc|]. exfalso.
      assert (Zpos m2 * 2 ^ 53 <= Zpos m2 * Zpos qp)
        by (apply Z.mul_le_mono_nonneg_l; lia).
      subst a. lia. }
    assert (Hd53 : d = 53) by (apply digits2_pos_unique; lia). lia.
Qed.

(** The ratio of a covered count to a total that fits [int]. *)
Lemma ratio_in_unit c s :
  0 <= c <= s -> s < 2 ^ 63 -> GoFloat.in_unit (ratio c s) = true.
Proof.
  intros Hc Hs. unfold ratio. destruct (s =? 0) eqn:E; [reflexivity|].
  apply Z.eqb_neq in E.
  destruct (Z.eq_dec c 0) as [->|Hc0].
  - destruct (of_int_normal s) as (m & e & -> & _); [lia|]. reflexivity.
  - apply div_in_unit.
    + apply of_int_normal. lia.
    + apply of_int_normal. lia.
    + apply of_int_mono; lia.
Qed.

(** ** Bounds *)

(** C8, as stated, at [overflowing]: the blocks are as the data model
    asks, the statement total is negative and the ratio is [-0.5]. *)
Lemma bounds_fail_on_overflow :
  well_formed overflowing /\
  ~ ratios_in_unit (fst (GroupCoverage overflowing [by_file])) /\
  ~ breakdown_in_bounds (fst (GetTotalCoverageBreakdown overflowing)).
Proof.
  split; [|split].
  - intros b [<-|[<-|[]]]; simpl; lia.
  - intros H.
    destruct (proj2 (GroupCoverage_names overflowing [by_file] "file"))
      as [bucket Hb]; [now left|].
    pose proof (GroupCoverage_bucket _ _ _ _ "example.com/org/repo/a.go" Hb) as Hk.
    set (entry := bucket_entry _) in Hk. vm_compute in entry. subst entry.
    specialize (H _ _ _ _ Hb Hk). vm_compute in H. discriminate H.
  - intros (_ & _ & H & _). vm_compute in H. apply H. reflexivity.
Qed.

(** Two specifications of one name accumulate twice: the total of
    [2 ^ 62] statements fits [int], the accumulated [2 ^ 63] does not, and
    the ratio is [-0.5] again. *)
Example repeated_name_overflows :
  inner (fst (GroupCoverage
                [record_of "a.go" [block_of (2 ^ 61) 1; block_of (2 ^ 61) 0]]
                [by_file; by_file]))
        "file" !! "example.com/org/repo/a.go"%string
  = Some (S754_finite true (2 ^ 52) (-53)).
Proof. rewrite GroupCoverage_entry. vm_compute. reflexivity. Qed.

Lemma key_blocks_In group k items b :
  In b (key_blocks group k items) -> In b (all_blocks items).
Proof.
  unfold key_blocks, all_blocks. rewrite !in_flat_map.
  intros (c & Hc & Hb). exists c. split; [exact Hc|].
  destruct (decide _); [exact Hb | destruct Hb].
Qed.

Lemma acc_blocks_all items groups n k b :
  In b (acc_blocks items groups n k) -> In b (all_blocks items).
Proof.
  unfold acc_blocks. rewrite in_flat_map. intros (g & _ & Hb).
  destruct (decide _); [|destruct Hb]. eapply key_blocks_In, Hb.
Qed.

Lemma key_blocks_sum_le f group k items :
  (forall b, In b (all_blocks items) -> 0 <= f b) ->
  sumZ f (key_blocks group k items) <= sumZ f (all_blocks items).
Proof.
  unfold key_blocks, all_blocks.
  induction items as [|c items IH]; simpl; intros H; [lia|].
  rewrite !sumZ_app.
  assert (0 <= sumZ f (Blocks c))
    by (apply sumZ_nonneg; intros; apply H, in_or_app; now left).
  assert (sumZ f (flat_map (fun cov => if decide (KeyFunc group (FileName cov) = k)
                                       then Blocks cov else []) items)
          <= sumZ f (flat_map Blocks items))
    by (apply IH; intros; apply H, in_or_app; now right).
  destruct (decide _); simpl; lia.
Qed.

Lemma acc_blocks_sum_le f items groups n k :
  (forall b, In b (all_blocks items) -> 0 <= f b) ->
  sumZ f (acc_blocks items groups n k)
  <= Z.of_nat (length groups) * sumZ f (all_blocks items).
Proof.
  intros H. unfold acc_blocks.
  pose proof (sumZ_nonneg f (all_blocks items) H) as Hall.
  induction groups as [|g groups IH]; [simpl; lia|].
  cbn [flat_map length]. rewrite sumZ_app, Nat2Z.inj_succ.
  pose proof (key_blocks_sum_le f g k items H).
  destruct (decide _); simpl; lia.
Qed.

(** C8, amended: when every block has [numStatements >= 0], [count >= 0]
    and [endLine >= startLine], and the totals fit [int] (the sum of
    [endLine - startLine + 1] over all blocks is below [2 ^ 63], and so
    is the sum of [numStatements] over all blocks, also when multiplied
    by the number of specifications), every ratio of every bucket lies
    between [0.0] and [1.0], the four counts of the breakdown are
    non-negative and its two percentages lie between [0.0] and [1.0]. *)
Theorem results_in_bounds (items : list Coverage) (groups : list ParseGroup) :
  well_formed items ->
  sumZ block_lines (all_blocks items) < 2 ^ 63 ->
  Z.max 1 (Z.of_nat (length groups)) * sumZ NumStmt (all_blocks items) < 2 ^ 63 ->
  ratios_in_unit (fst (GroupCoverage items groups)) /\
  breakdown_in_bounds (fst (GetTotalCoverageBreakdown items)).
Proof.
  intros Hwf Hlines Hstmts.
  assert (Hn : forall b, In b (all_blocks items) -> 0 <= NumStmt b)
    by (intros b Hb; apply (Hwf b Hb)).
  assert (Hl : forall b, In b (all_blocks items) -> 0 <= block_lines b)
    by (intros b Hb; unfold block_lines; destruct (Hwf b Hb) as (_ & _ & ?); lia).
  pose proof (sumZ_nonneg NumStmt _ Hn) as Htot.
  split.
  - intros n bucket k r Hb Hk.
    rewrite (GroupCoverage_bucket _ _ _ _ k Hb) in Hk.
    apply bucket_entry_Some in Hk as [_ ->].
    set (bs := acc_blocks items groups n k).
    assert (Hbs : forall b, In b bs -> 0 <= NumStmt b)
      by (intros b Hb'; eapply Hn, acc_blocks_all, Hb').
    pose proof (sumZ_covered_le NumStmt bs Hbs) as Hcov.
    pose proof (acc_blocks_sum_le NumStmt items groups n k Hn) as Hsum. fold bs in Hsum.
    assert (Hfit : sumZ NumStmt bs < 2 ^ 63) by nia.
    rewrite !wrap_small by (unfold GoInt.in_range, GoInt.half; lia).
    apply ratio_in_unit; lia.
  - destruct (breakdown_fields items) as ((Htl & Htcl & Hts & Htcs) & Hpl & Hps).
    pose proof (sumZ_covered_le block_lines _ Hl) as Hcl.
    pose proof (sumZ_covered_le NumStmt _ Hn) as Hcn.
    assert (Hfit : sumZ NumStmt (all_blocks items) < 2 ^ 63) by nia.
    rewrite !wrap_small in Htl, Htcl, Hts, Htcs
      by (unfold GoInt.in_range, GoInt.half; lia).
    unfold breakdown_in_bounds. rewrite Hpl, Hps, Htl, Htcl, Hts, Htcs.
    split; [lia|]. split; [lia|]. split; [lia|]. split; [lia|].
    split; apply (ratio_in_unit _ _); lia.
Qed.

Lemma results_in_bounds_witness :
  ratios_in_unit (fst (GroupCoverage two_records [by_file; all_in_one])) /\
  breakdown_in_bounds (fst (GetTotalCoverageBreakdown two_records)).
Proof.
  apply (results_in_bounds two_records [by_file; all_in_one]).
  - intros b [<-|[<-|[]]]; simpl; lia.
  - vm_compute. reflexivity.
  - vm_compute. reflexivity.
Defined.

(** * Further properties of the code *)

(** ** The pattern and its submatches *)

Lemma line_prefix_no_newline s : no_newline (line_prefix s).
Proof.
  unfold no_newline. induction s as [|c s IH]; simpl; [reflexivity|].
  destruct (any_char c) eqn:E; simpl; [now rewrite E | reflexivity].
Qed.

Lemma line_rest_no_newline s : no_newline s -> line_rest s = ""%string.
Proof. intros H. now destruct (no_newline_line_prefix s H). Qed.

(** X1: the pattern matches a text exactly when the text holds at least
    two ['/'] (one ['/'] is not enough), and a match is a slice of five
    strings. *)
Theorem pattern_matches_iff_two_slashes (s : string) :
  (FindStringSubmatch parseLineRegex s <> [] <-> (2 <= slashes s)%nat) /\
  (FindStringSubmatch parseLineRegex s = [] \/
   length (FindStringSubmatch parseLineRegex s) = 5%nat).
Proof.
  split; [apply FindStringSubmatch_matches|].
  destruct (Nat.lt_ge_cases (slashes s) 2) as [Hlt|Hge].
  - left. now apply FindStringSubmatch_none.
  - right. destruct (two_slashes_split s Hge) as (h & o & rest & -> & Hh & Ho).
    destruct (Nat.eq_0_gt_0_cases (slashes rest)) as [E|E].
    + apply slashes_zero in E.
      now rewrite (FindStringSubmatch_here _ _ _ (match_here_norepo h o rest Hh Ho E)).
    + destruct (slashes_split rest) as (r & p & -> & Hr & _); [lia|].
      now rewrite (FindStringSubmatch_here _ _ _ (match_here_repo h o r p Hh Ho Hr)).
Qed.

(** X2: on [host/owner/repo/path] with the first three free of ['/'], the
    submatches are those four parts, the path cut at its first line feed;
    the repository may be empty, and the path may hold further ['/']. *)
Theorem submatches_of_four_segments (h o r p : string) :
  no_slash h -> no_slash o -> no_slash r ->
  let s := h +:+ String slash (o +:+ String slash (r +:+ String slash p)) in
  let m := FindStringSubmatch parseLineRegex s in
  index m hostPosition = h /\ index m ownerPosition = o /\
  index m repoPosition = r /\ index m pathPosition = line_prefix p /\
  (no_newline p -> index m pathPosition = p /\ index m 0%nat = s).
Proof.
  intros Hh Ho Hr s m. subst s m.
  rewrite (FindStringSubmatch_here _ _ _ (match_here_repo h o r p Hh Ho Hr)).
  cbn [index nth hostPosition ownerPosition repoPosition pathPosition].
  repeat split; try reflexivity; destruct (no_newline_line_prefix p H) as [-> _];
    reflexivity.
Qed.

Lemma submatches_of_four_segments_witness :
  let s := "github.com" +:+ String slash ("org" +:+ String slash
             ("repo" +:+ String slash "pkg/file.go")) in
  let m := FindStringSubmatch parseLineRegex s in
  index m hostPosition = "github.com"%string /\ index m ownerPosition = "org"%string /\
  index m repoPosition = "repo"%string /\
  index m pathPosition = line_prefix "pkg/file.go" /\
  (no_newline "pkg/file.go" -> index m pathPosition = "pkg/file.go"%string /\
                               index m 0%nat = s).
Proof.
  apply (submatches_of_four_segments "github.com" "org" "repo" "pkg/file.go");
    reflexivity.
Defined.

(** X3: whatever text matches, the host, the owner and the repository
    hold no ['/'], the path holds no line feed, and the text of the match
    is the text itself up to its first line feed after the owner: the
    match starts at the first character. *)
Theorem submatches_are_segments (s : string) :
  FindStringSubmatch parseLineRegex s <> [] ->
  let m := FindStringSubmatch parseLineRegex s in
  no_slash (index m hostPosition) /\ no_slash (index m ownerPosition) /\
  no_slash (index m repoPosition) /\ no_newline (index m pathPosition) /\
  exists rest, s = index m 0%nat +:+ rest /\ (no_newline s -> rest = ""%string).
Proof.
  intros Hm m. subst m. apply FindStringSubmatch_matches in Hm.
  destruct (two_slashes_split s Hm) as (h & o & rest & -> & Hh & Ho).
  destruct (Nat.eq_0_gt_0_cases (slashes rest)) as [E|E].
  - apply slashes_zero in E.
    rewrite (FindStringSubmatch_here _ _ _ (match_here_norepo h o rest Hh Ho E)).
    cbn [index nth hostPosition ownerPosition repoPosition pathPosition].
    split; [exact Hh|]. split; [exact Ho|]. split; [reflexivity|].
    split; [apply line_prefix_no_newline|].
    exists (line_rest rest). split.
    + now rewrite !append_cons_assoc, <- line_prefix_rest.
    + intros Hnl. apply line_rest_no_newline.
      unfold no_newline in *. rewrite all_chars_append in Hnl.
      apply andb_true_iff in Hnl as [_ Hnl]. simpl in Hnl.
      rewrite all_chars_append in Hnl.
      apply andb_true_iff in Hnl as [_ Hnl]. simpl in Hnl. exact Hnl.
  - destruct (slashes_split rest) as (r & p & -> & Hr & _); [lia|].
    rewrite (FindStringSubmatch_here _ _ _ (match_here_repo h o r p Hh Ho Hr)).
    cbn [index nth hostPosition ownerPosition repoPosition pathPosition].
    split; [exact Hh|]. split; [exact Ho|]. split; [exact Hr|].
    split; [apply line_prefix_no_newline|].
    exists (line_rest p). split.
    + now rewrite !append_cons_assoc, <- line_prefix_rest.
    + intros Hnl. apply line_rest_no_newline.
      unfold no_newline in *. rewrite all_chars_append in Hnl.
      apply andb_true_iff in Hnl as [_ Hnl]. simpl in Hnl.
      rewrite all_chars_append in Hnl.
      apply andb_true_iff in Hnl as [_ Hnl]. simpl in Hnl.
      rewrite all_chars_append in Hnl.
      apply andb_true_iff in Hnl as [_ Hnl]. simpl in Hnl. exact Hnl.
Qed.

Lemma submatches_are_segments_witness :
  let m := FindStringSubmatch parseLineRegex "github.com/org/file.go" in
  no_slash (index m hostPosition) /\ no_slash (index m ownerPosition) /\
  no_slash (index m repoPosition) /\ no_newline (index m pathPosition) /\
  exists rest, "github.com/org/file.go"%string = index m 0%nat +:+ rest /\
               (no_newline "github.com/org/file.go" -> rest = ""%string).
Proof.
  apply (submatches_are_segments "github.com/org/file.go").
  vm_compute. intros H. discriminate H.
Defined.

(** ** Parse: success and failure *)

Lemma matches_pattern_length profile :
  matches_pattern profile ->
  (length (FindStringSubmatch parseLineRegex (ProfileFileName profile)) =? 0)%nat
  = false.
Proof.
  intros H. apply FindStringSubmatch_matches in H.
  destruct (FindStringSubmatch parseLineRegex (ProfileFileName profile));
    [congruence | reflexivity].
Qed.

Lemma parse_profiles_all profiles : forall coverage,
  Forall matches_pattern profiles ->
  parse_profiles profiles coverage
  = (coverage ++ map coverage_of_profile profiles, None).
Proof.
  induction profiles as [|p profiles IH]; intros coverage H.
  - cbn [parse_profiles map]. now rewrite app_nil_r.
  - apply Forall_cons in H as [Hp H]. cbn [parse_profiles map].
    rewrite (matches_pattern_length p Hp), (IH _ H), <- app_assoc. reflexivity.
Qed.

Lemma parse_profiles_error profiles : forall coverage,
  (snd (parse_profiles profiles coverage) = None <-> Forall matches_pattern profiles) /\
  (snd (parse_profiles profiles coverage) <> None ->
   fst (parse_profiles profiles coverage) = []).
Proof.
  induction profiles as [|p profiles IH]; intros coverage.
  - cbn [parse_profiles fst snd]. split; [split; [intros _; apply Forall_nil; exact I | reflexivity] | congruence].
  - cbn [parse_profiles].
    destruct (Nat.lt_ge_cases (slashes (ProfileFileName p)) 2) as [Hlt|Hge].
    + rewrite (FindStringSubmatch_none _ Hlt). cbn [length Nat.eqb fst snd].
      split; [|reflexivity]. split; [discriminate|].
      intros H. apply Forall_cons in H as [Hp _]. unfold matches_pattern in Hp. lia.
    + rewrite (matches_pattern_length p Hge).
      destruct (IH (coverage ++ [coverage_of_profile p])) as [Hiff Hnil].
      split; [|exact Hnil]. rewrite Hiff, Forall_cons. unfold matches_pattern at 2.
      tauto.
Qed.

(** X4: when the profile parser gives profiles whose file identifiers all
    hold two ['/'] or more, [Parse] returns no error and one record for
    each profile, in the order of the profiles, with the file identifier
    and the blocks of the profile as they are and the four parts the
    pattern extracts from the identifier. *)
Theorem parse_builds_one_record_per_profile
    (TrimSpace : string -> string)
    (ParseProfilesFromReader : string -> list Profile + string)
    (coverageData : string) (profiles : list Profile) :
  ParseProfilesFromReader (TrimSpace coverageData) = inl profiles ->
  Forall matches_pattern profiles ->
  exists coverage,
    Parse TrimSpace ParseProfilesFromReader coverageData = (coverage, None) /\
    length coverage = length profiles /\
    map FileName coverage = map ProfileFileName profiles /\
    map Blocks coverage = map ProfileBlocks profiles /\
    Forall2 (fun profile cov =>
               let m := FindStringSubmatch parseLineRegex (ProfileFileName profile) in
               Host cov = index m hostPosition /\ Owner cov = index m ownerPosition /\
               Repo cov = index m repoPosition /\ Path cov = index m pathPosition)
            profiles coverage.
Proof.
  intros Hparse Hall. exists (map coverage_of_profile profiles).
  split; [|split; [|split; [|split]]].
  - unfold Parse. rewrite Hparse.
    destruct profiles as [|p profiles]; [reflexivity|].
    cbn [length Nat.eqb]. now rewrite parse_profiles_all.
  - apply length_map.
  - rewrite map_map. reflexivity.
  - rewrite map_map. reflexivity.
  - clear Hparse Hall. induction profiles as [|p profiles IH]; cbn [map].
    + apply Forall2_nil. exact I.
    + apply Forall2_cons. split; [|exact IH]. cbn. repeat split; reflexivity.
Qed.

Lemma parse_builds_one_record_per_profile_witness :
  exists coverage,
    Parse trim_blanks (profiles_reader two_profiles) "mode: set" = (coverage, None) /\
    length coverage = length two_profiles /\
    map FileName coverage = map ProfileFileName two_profiles /\
    map Blocks coverage = map ProfileBlocks two_profiles /\
    Forall2 (fun profile cov =>
               let m := FindStringSubmatch parseLineRegex (ProfileFileName profile) in
               Host cov = index m hostPosition /\ Owner cov = index m ownerPosition /\
               Repo cov = index m repoPosition /\ Path cov = index m pathPosition)
            two_profiles coverage.
Proof.
  apply (parse_builds_one_record_per_profile trim_blanks
           (profiles_reader two_profiles) "mode: set" two_profiles).
  - reflexivity.
  - apply Forall_cons. split; [vm_compute; lia|].
    apply Forall_cons. split; [vm_compute; lia|]. apply Forall_nil. exact I.
Defined.

(** X5: [Parse] returns no error exactly when the profile parser succeeds
    and every file identifier it gives holds two ['/'] or more; whenever
    it returns an error it returns no record at all, and the error of the
    profile parser comes back as the format of the wrapped error, without
    arguments. *)
Theorem parse_error_iff
    (TrimSpace : string -> string)
    (ParseProfilesFromReader : string -> list Profile + string)
    (coverageData : string) :
  let r := Parse TrimSpace ParseProfilesFromReader coverageData in
  (snd r = None <->
   exists profiles,
     ParseProfilesFromReader (TrimSpace coverageData) = inl profiles /\
     Forall matches_pattern profiles) /\
  (snd r <> None -> fst r = []) /\
  (forall err, ParseProfilesFromReader (TrimSpace coverageData) = inr err ->
     r = ([], Some (Wrapf ErrInvalidCoverageData err []))).
Proof.
  cbn zeta. unfold Parse.
  destruct (ParseProfilesFromReader (TrimSpace coverageData)) as [profiles|err].
  - destruct profiles as [|p profiles].
    + cbn [length Nat.eqb fst snd]. split; [|split; [congruence | discriminate]].
      split; [|reflexivity]. intros _. exists []. split; [reflexivity|].
      apply Forall_nil. exact I.
    + cbn [length Nat.eqb].
      destruct (parse_profiles_error (p :: profiles) []) as [Hiff Hnil].
      split; [|split; [exact Hnil | discriminate]].
      rewrite Hiff. split.
      * intros H. now exists (p :: profiles).
      * intros (profiles' & E & H). now injection E as <-.
  - cbn [fst snd]. split; [|split; [reflexivity|]].
    + split; [discriminate|]. intros (profiles & E & _). discriminate E.
    + intros err' E. now injection E as <-.
Qed.

(** ** GroupCoverage: the whole result *)

Lemma acc_blocks_elem items groups n k b :
  In b (acc_blocks items groups n k) <->
  exists group cov,
    In group groups /\ Name group = n /\ In cov items /\
    KeyFunc group (FileName cov) = k /\ In b (Blocks cov).
Proof.
  unfold acc_blocks. rewrite in_flat_map. split.
  - intros (g & Hg & Hb). destruct (decide (n = Name g)) as [->|]; [|destruct Hb].
    unfold key_blocks in Hb. apply in_flat_map in Hb as (c & Hc & Hb).
    destruct (decide (KeyFunc g (FileName c) = k)) as [<-|]; [|destruct Hb].
    exists g, c. auto.
  - intros (g & c & Hg & <- & Hc & <- & Hb). exists g. split; [exact Hg|].
    rewrite decide_True by reflexivity. unfold key_blocks. apply in_flat_map.
    exists c. split; [exact Hc|]. now rewrite decide_True by reflexivity.
Qed.

(** Two calls whose names and entries agree return the same result. *)
Lemma GroupCoverage_ext items groups items' groups' :
  (forall n, In n (map Name groups) <-> In n (map Name groups')) ->
  (forall n k, bucket_entry (acc_blocks items groups n k)
               = bucket_entry (acc_blocks items' groups' n k)) ->
  GroupCoverage items groups = GroupCoverage items' groups'.
Proof.
  intros Hnames Hentries.
  assert (E : fst (GroupCoverage items groups) = fst (GroupCoverage items' groups')).
  { apply map_eq. intros n.
    pose proof (GroupCoverage_names items groups n) as H1.
    pose proof (GroupCoverage_names items' groups' n) as H2.
    destruct (fst (GroupCoverage items groups) !! n) as [b1|] eqn:E1;
      destruct (fst (GroupCoverage items' groups') !! n) as [b2|] eqn:E2.
    - f_equal. apply map_eq. intros k.
      rewrite (GroupCoverage_bucket _ _ _ _ k E1), (GroupCoverage_bucket _ _ _ _ k E2).
      apply Hentries.
    - exfalso. assert (Hs : is_Some (Some b1)) by eauto.
      apply H1, Hnames, H2 in Hs. destruct Hs as [x Hx]. discriminate Hx.
    - exfalso. assert (Hs : is_Some (Some b2)) by eauto.
      apply H2, Hnames, H1 in Hs. destruct Hs as [x Hx]. discriminate Hx.
    - reflexivity. }
  unfold GroupCoverage in *. cbn [fst] in E. now rewrite E.
Qed.

(** X6: in every call, repeated names included, the result has a bucket
    for a name exactly when some specification bears it; the bucket maps
    a key to the ratio of the sums over the blocks accumulated under that
    name and key, which are the blocks of every record that a
    specification of that name maps to the key, and it has no entry for a
    key with no such block. *)
Theorem group_result_of_any_call (items : list Coverage) (groups : list ParseGroup)
    (n : string) :
  let res := fst (GroupCoverage items groups) in
  (is_Some (res !! n) <-> In n (map Name groups)) /\
  (forall bucket k, res !! n = Some bucket ->
     let bs := acc_blocks items groups n k in
     let stmts := GoInt.wrap (sumZ NumStmt bs) in
     let cov := GoInt.wrap (sumZ NumStmt (covered_blocks bs)) in
     bucket !! k =
       match bs with
       | [] => None
       | _ => Some (if stmts =? 0 then GoFloat.zero
                    else GoFloat.div (GoFloat.of_int cov) (GoFloat.of_int stmts))
       end) /\
  (forall k b,
     In b (acc_blocks items groups n k) <->
     exists group cov,
       In group groups /\ Name group = n /\ In cov items /\
       KeyFunc group (FileName cov) = k /\ In b (Blocks cov)).
Proof.
  cbn zeta. split; [apply GroupCoverage_names|]. split.
  - intros bucket k Hb. rewrite (GroupCoverage_bucket _ _ _ _ k Hb).
    unfold bucket_entry, ratio. reflexivity.
  - intros k b. apply acc_blocks_elem.
Qed.

(** ** GroupCoverage: what the result does not depend on *)

Lemma sumZ_Permutation f bs bs' :
  Permutation bs bs' -> sumZ f bs = sumZ f bs'.
Proof. induction 1; simpl; lia. Qed.

Lemma covered_blocks_Permutation bs bs' :
  Permutation bs bs' -> Permutation (covered_blocks bs) (covered_blocks bs').
Proof.
  unfold covered_blocks. induction 1 as [|b bs bs' _ IH|b1 b2 bs|bs1 bs2 bs3 _ IH1 _ IH2];
    simpl.
  - constructor.
  - destruct (is_covered b); [now constructor | exact IH].
  - destruct (is_covered b1), (is_covered b2); try reflexivity. constructor.
  - now transitivity (List.filter is_covered bs2).
Qed.

Lemma bucket_entry_Permutation bs bs' :
  Permutation bs bs' -> bucket_entry bs = bucket_entry bs'.
Proof.
  intros H. unfold bucket_entry.
  rewrite (sumZ_Permutation NumStmt _ _ H),
          (sumZ_Permutation NumStmt _ _ (covered_blocks_Permutation _ _ H)).
  destruct bs as [|b bs], bs' as [|b' bs']; try reflexivity.
  - apply Permutation_nil in H. discriminate H.
  - symmetry in H. apply Permutation_nil in H. discriminate H.
Qed.

Lemma flat_map_Permutation_ext {A B : Type} (f f' : A -> list B) l :
  (forall x, Permutation (f x) (f' x)) ->
  Permutation (flat_map f l) (flat_map f' l).
Proof.
  intros H. induction l as [|x l IH]; simpl; [constructor|].
  now apply Permutation_app.
Qed.

Lemma key_blocks_Permutation group k items items' :
  Permutation items items' ->
  Permutation (key_blocks group k items) (key_blocks group k items').
Proof. apply Permutation_flat_map. Qed.

Lemma acc_blocks_Permutation items items' groups groups' n k :
  Permutation items items' -> Permutation groups groups' ->
  Permutation (acc_blocks items groups n k) (acc_blocks items' groups' n k).
Proof.
  intros Hi Hg. unfold acc_blocks.
  transitivity (flat_map (fun group => if decide (n = Name group)
                                       then key_blocks group k items' else []) groups).
  - apply flat_map_Permutation_ext. intros g.
    destruct (decide _); [now apply key_blocks_Permutation | constructor].
  - now apply Permutation_flat_map.
Qed.

(** X7: the result depends neither on the order of the records nor on the
    order of the specifications. *)
Theorem group_result_ignores_order (items items' : list Coverage)
    (groups groups' : list ParseGroup) :
  Permutation items items' -> Permutation groups groups' ->
  GroupCoverage items groups = GroupCoverage items' groups'.
Proof.
  intros Hi Hg. apply GroupCoverage_ext.
  - intros n. split; intros H.
    + eapply Permutation_in; [apply Permutation_map, Hg | exact H].
    + eapply Permutation_in; [apply Permutation_map; symmetry; exact Hg | exact H].
  - intros n k. apply bucket_entry_Permutation.
    now apply acc_blocks_Permutation.
Qed.

Lemma group_result_ignores_order_witness :
  GroupCoverage two_records [by_file; constant_key "all" "k"]
  = GroupCoverage (rev two_records) [constant_key "all" "k"; by_file].
Proof.
  apply (group_result_ignores_order two_records (rev two_records)
           [by_file; constant_key "all" "k"] [constant_key "all" "k"; by_file]).
  - apply Permutation_rev.
  - apply perm_swap.
Defined.

(** ** Input without blocks *)

Lemma blockless_all_blocks items : blockless items -> all_blocks items = [].
Proof.
  unfold blockless, all_blocks. induction items as [|c items IH]; intros H;
    [reflexivity|].
  simpl. rewrite (H c) by now left. apply IH. intros c' Hc'. apply H. now right.
Qed.

(** X9: when no record holds a block (in particular on an empty sequence
    of records), every specification still gets its bucket, and every
    bucket is empty. *)
Theorem group_result_of_blockless_input (items : list Coverage)
    (groups : list ParseGroup) (group : ParseGroup) :
  blockless items -> In group groups ->
  fst (GroupCoverage items groups) !! Name group = Some ∅.
Proof.
  intros Hitems Hg.
  destruct (proj2 (GroupCoverage_names items groups (Name group)))
    as [bucket Hb]; [apply in_map, Hg|].
  rewrite Hb. f_equal. apply map_eq. intros k.
  rewrite (GroupCoverage_bucket _ _ _ _ k Hb), lookup_empty.
  rewrite acc_blocks_nil; [reflexivity|].
  intros g c _ _ Hc _. now apply Hitems.
Qed.

Lemma group_result_of_blockless_input_witness :
  fst (GroupCoverage [] [by_file; constant_key "all" "k"]) !! Name by_file = Some ∅.
Proof.
  apply (group_result_of_blockless_input [] [by_file; constant_key "all" "k"] by_file).
  - intros cov H. destruct H.
  - left. reflexivity.
Defined.

(** X14: when no record holds a block, the breakdown is the initial one:
    four zero counts and both percentages [0.0]. *)
Theorem breakdown_of_blockless_input (items : list Coverage) :
  blockless items ->
  GetTotalCoverageBreakdown items = (breakdown_init, None).
Proof.
  intros H. unfold GetTotalCoverageBreakdown. f_equal.
  assert (E : fold_left breakdown_item items breakdown_init = breakdown_init).
  { generalize breakdown_init. induction items as [|c items IH]; intros r;
      [reflexivity|].
    cbn [fold_left]. unfold breakdown_item at 2. rewrite (H c) by now left.
    cbn [fold_left]. apply IH. intros c' Hc'. apply H. now right. }
  rewrite E. reflexivity.
Qed.

Lemma breakdown_of_blockless_input_witness :
  GetTotalCoverageBreakdown [record_of "a.go" []; record_of "b.go" []]
  = (breakdown_init, None).
Proof.
  apply (breakdown_of_blockless_input [record_of "a.go" []; record_of "b.go" []]).
  intros cov [<-|[<-|[]]]; reflexivity.
Defined.

(** ** The two aggregators together *)





(** ** The breakdown as a function of the blocks *)

Lemma breakdown_eq r r' :
  TotalCoveredLines r = TotalCoveredLines r' -> TotalLines r = TotalLines r' ->
  PercentByLines r = PercentByLines r' ->
  TotalCoveredStatements r = TotalCoveredStatements r' ->
  TotalStatements r = TotalStatements r' ->
  PercentByStatements r = PercentByStatements r' -> r = r'.
Proof. destruct r, r'. cbn. intros. subst. reflexivity. Qed.

(** X11: the breakdown is a function of the bag of blocks: how the blocks
    are spread over the records, and in which order they come, changes
    nothing. *)
Theorem breakdown_depends_on_blocks_only (items items' : list Coverage) :
  Permutation (all_blocks items) (all_blocks items') ->
  GetTotalCoverageBreakdown items = GetTotalCoverageBreakdown items'.
Proof.
  intros H.
  destruct (breakdown_fields items) as ((Hl & Hcl & Hs & Hcs) & Hpl & Hps).
  destruct (breakdown_fields items') as ((Hl' & Hcl' & Hs' & Hcs') & Hpl' & Hps').
  pose proof (covered_blocks_Permutation _ _ H) as Hc.
  assert (El : TotalLines (fst (GetTotalCoverageBreakdown items))
               = TotalLines (fst (GetTotalCoverageBreakdown items')))
    by (rewrite Hl, Hl'; f_equal; now apply sumZ_Permutation).
  assert (Ecl : TotalCoveredLines (fst (GetTotalCoverageBreakdown items))
                = TotalCoveredLines (fst (GetTotalCoverageBreakdown items')))
    by (rewrite Hcl, Hcl'; f_equal; now apply sumZ_Permutation).
  assert (Es : TotalStatements (fst (GetTotalCoverageBreakdown items))
               = TotalStatements (fst (GetTotalCoverageBreakdown items')))
    by (rewrite Hs, Hs'; f_equal; now apply sumZ_Permutation).
  assert (Ecs : TotalCoveredStatements (fst (GetTotalCoverageBreakdown items))
                = TotalCoveredStatements (fst (GetTotalCoverageBreakdown items')))
    by (rewrite Hcs, Hcs'; f_equal; now apply sumZ_Permutation).
  assert (E : fst (GetTotalCoverageBreakdown items)
              = fst (GetTotalCoverageBreakdown items')).
  { apply breakdown_eq; try assumption.
    - rewrite Hpl, Hpl'. now rewrite El, Ecl.
    - rewrite Hps, Hps'. now rewrite Es, Ecs. }
  unfold GetTotalCoverageBreakdown in *. cbn [fst] in E. now rewrite E.
Qed.

Lemma breakdown_depends_on_blocks_only_witness :
  GetTotalCoverageBreakdown two_records
  = GetTotalCoverageBreakdown [record_of "c.go" [block_of 1 0; block_of 1 1]].
Proof.
  apply (breakdown_depends_on_blocks_only two_records
           [record_of "c.go" [block_of 1 0; block_of 1 1]]).
  apply perm_swap.
Defined.

Lemma all_blocks_app items1 items2 :
  all_blocks (items1 ++ items2) = all_blocks items1 ++ all_blocks items2.
Proof. apply flat_map_app. Qed.

(** X12: the counts of the breakdown of two sequences of records put
    together are the [int] sums of the counts of the two breakdowns. *)
Theorem breakdown_counts_add (items1 items2 : list Coverage) :
  let r := fst (GetTotalCoverageBreakdown (items1 ++ items2)) in
  let r1 := fst (GetTotalCoverageBreakdown items1) in
  let r2 := fst (GetTotalCoverageBreakdown items2) in
  TotalLines r = GoInt.add (TotalLines r1) (TotalLines r2) /\
  TotalCoveredLines r = GoInt.add (TotalCoveredLines r1) (TotalCoveredLines r2) /\
  TotalStatements r = GoInt.add (TotalStatements r1) (TotalStatements r2) /\
  TotalCoveredStatements r
  = GoInt.add (TotalCoveredStatements r1) (TotalCoveredStatements r2).
Proof.
  cbn zeta.
  destruct (breakdown_fields (items1 ++ items2)) as ((Hl & Hcl & Hs & Hcs) & _).
  destruct (breakdown_fields items1) as ((Hl1 & Hcl1 & Hs1 & Hcs1) & _).
  destruct (breakdown_fields items2) as ((Hl2 & Hcl2 & Hs2 & Hcs2) & _).
  rewrite Hl, Hcl, Hs, Hcs, Hl1, Hcl1, Hs1, Hcs1, Hl2, Hcl2, Hs2, Hcs2.
  rewrite all_blocks_app, covered_blocks_app, !sumZ_app. unfold GoInt.add.
  rewrite !wrap_add_l, !wrap_add_r. repeat split; reflexivity.
Qed.



(** ** Quotients of [float64]: exact cases and finiteness *)

(** The quotient of two floats with full significands, of either sign,
    before the final rounding. *)
Lemma div_finite_normal_rounded s1 m1 e1 s2 m2 e2 :
  2 ^ 52 <= Zpos m1 < 2 ^ 53 -> 2 ^ 52 <= Zpos m2 < 2 ^ 53 ->
  -52 <= e1 <= 11 -> -52 <= e2 <= 11 ->
  exists p k st,
    Zpos p = Zpos m1 * 2 ^ 53 / Zpos m2 /\
    Zpos (digits2_pos p) = 53 + k /\ 0 <= k <= 1 /\
    st = fst (shr (shr_record_of_loc (Zpos p)
                     (new_location (Zpos m2) (Zpos m1 * 2 ^ 53 mod Zpos m2)))
                  (e1 - e2 - 53) k) /\
    2 ^ 52 <= shr_m st < 2 ^ 53 /\
    GoFloat.div (S754_finite s1 m1 e1) (S754_finite s2 m2 e2)
    = rounded (xorb s1 s2)
              (round_nearest_even (shr_m st) (loc_of_shr_record st))
              (e1 - e2 - 53 + k).
Proof.
  intros Hm1 Hm2 He1 He2.
  unfold GoFloat.div. cbn [SFdiv]. unfold SFdiv_core_binary. cbn [Zdigits2].
  rewrite (digits2_pos_unique m1 53), (digits2_pos_unique m2 53) by lia.
  rewrite fexp_normal by lia.
  replace (Z.min (53 + e1 - (53 + e2) - 53) (e1 - e2)) with (e1 - e2 - 53) by lia.
  replace (e1 - e2 - (e1 - e2 - 53)) with 53 by lia.
  rewrite Z.shiftl_mul_pow2 by lia.
  set (a := Zpos m1 * 2 ^ 53).
  pose proof (Z.div_mod a (Zpos m2) ltac:(lia)) as Hdm.
  pose proof (Z.mod_pos_bound a (Zpos m2) ltac:(lia)) as Hr.
  unfold Z.div, Z.modulo in *.
  destruct (Z.div_eucl a (Zpos m2)) as [q r] eqn:Eqr. cbn [fst snd] in *.
  assert (Hq : 2 ^ 52 <= q < 2 ^ 54) by (subst a; nia).
  destruct q as [|qp|qp]; [lia| |lia].
  pose proof (digits2_pos_bounds qp) as Hb.
  set (d := Zpos (digits2_pos qp)) in *.
  assert (Hd : 53 <= d <= 54).
  { split.
    - destruct (Z_le_gt_dec 53 d); [assumption|].
      assert (2 ^ d <= 2 ^ 52) by (apply Z.pow_le_mono_r; lia). lia.
    - destruct (Z_le_gt_dec d 54); [assumption|].
      assert (2 ^ 54 <= 2 ^ (d - 1)) by (apply Z.pow_le_mono_r; lia). lia. }
  exists qp, (d - 53), (fst (shr (shr_record_of_loc (Zpos qp) (new_location (Zpos m2) r))
                               (e1 - e2 - 53) (d - 53))).
  split; [reflexivity|]. split; [fold d; lia|]. split; [lia|].
  split; [reflexivity|]. split; [apply shr_m_normal; [fold d|]; lia|].
  rewrite (binary_round_aux_normal (xorb s1 s2) qp (d - 53)) by (try fold d; lia).
  reflexivity.
Qed.

Lemma rounded_is_finite sx m e : is_finite (rounded sx m e) = true.
Proof. unfold rounded. destruct (m <? 2 ^ 53); reflexivity. Qed.

(** A float divided by itself is [1.0]. *)
Lemma div_self m e :
  2 ^ 52 <= Zpos m < 2 ^ 53 -> -52 <= e <= 11 ->
  GoFloat.div (S754_finite false m e) (S754_finite false m e) = GoFloat.one.
Proof.
  intros Hm He.
  destruct (div_finite_normal_rounded false m e false m e Hm Hm He He)
    as (p & k & st & Hp & Hd & Hk & Hst & _ & ->).
  rewrite Z.mul_comm, Z.div_mul in Hp by lia.
  rewrite (Z.mul_comm (Zpos m)), Z.mod_mul, new_location_exact in Hst by lia.
  assert (Hd54 : Zpos (digits2_pos p) = 54) by (apply digits2_pos_unique; lia).
  assert (k = 1) as -> by lia.
  injection Hp as ->.
  subst st. replace (e - e - 53 + 1) with (-52) by lia. reflexivity.
Qed.

Lemma ratio_self s : 0 < s < 2 ^ 63 -> ratio s s = GoFloat.one.
Proof.
  intros Hs. unfold ratio. rewrite (proj2 (Z.eqb_neq s 0)) by lia.
  destruct (of_int_normal s Hs) as (m & e & -> & Hm & He).
  now apply div_self.
Qed.

Lemma ratio_zero s : 0 <= s < 2 ^ 63 -> ratio 0 s = GoFloat.zero.
Proof.
  intros Hs. unfold ratio. destruct (s =? 0) eqn:E; [reflexivity|].
  apply Z.eqb_neq in E.
  destruct (of_int_normal s) as (m & e & -> & _); [lia|]. reflexivity.
Qed.

Lemma binary_round_aux_sign sx m e l :
  binary_round_aux GoFloat.prec GoFloat.emax sx m e l
  = set_sign sx (binary_round_aux GoFloat.prec GoFloat.emax false m e l).
Proof.
  unfold binary_round_aux.
  destruct (shr_fexp GoFloat.prec GoFloat.emax m e l) as [mrs e'].
  destruct (shr_fexp GoFloat.prec GoFloat.emax _ e' loc_Exact) as [mrs' e''].
  destruct (shr_m mrs'); [reflexivity| |reflexivity].
  destruct (e'' <=? GoFloat.emax - GoFloat.prec); reflexivity.
Qed.

Lemma of_int_neg p :
  GoFloat.of_int (Zneg p) = set_sign true (GoFloat.of_int (Zpos p)).
Proof.
  unfold GoFloat.of_int. cbn [binary_normalize]. unfold binary_round.
  destruct (shl_align p 0 _) as [mz ez]. apply binary_round_aux_sign.
Qed.

(** [float64(n)] of a nonzero [int] has a full significand. *)
Lemma of_int_finite_normal n :
  n <> 0 -> GoInt.in_range n -> finite_normal (GoFloat.of_int n).
Proof.
  unfold GoInt.in_range, GoInt.half. intros Hn Hr.
  destruct n as [|p|p]; [congruence| |].
  - destruct (of_int_normal (Zpos p)) as (m & e & E & Hm & He); [lia|].
    exists false, m, e. auto.
  - destruct (Z.eq_dec (Zpos p) (2 ^ 63)) as [E|E].
    + injection E as ->. exists true, (2 ^ 52)%positive, 11.
      split; [vm_compute; reflexivity | lia].
    + destruct (of_int_normal (Zpos p)) as (m & e & E' & Hm & He); [lia|].
      rewrite of_int_neg, E'. exists true, m, e. auto.
Qed.

(** The quotient the aggregators store is never NaN nor an infinity. *)
Lemma ratio_is_finite c s :
  GoInt.in_range c -> GoInt.in_range s -> is_finite (ratio c s) = true.
Proof.
  intros Hc Hs. unfold ratio. destruct (s =? 0) eqn:E; [reflexivity|].
  apply Z.eqb_neq in E.
  destruct (of_int_finite_normal s E Hs) as (s2 & m2 & e2 & -> & Hm2 & He2).
  destruct (Z.eq_dec c 0) as [->|Hc0]; [reflexivity|].
  destruct (of_int_finite_normal c Hc0 Hc) as (s1 & m1 & e1 & -> & Hm1 & He1).
  destruct (div_finite_normal_rounded s1 m1 e1 s2 m2 e2 Hm1 Hm2 He1 He2)
    as (p & k & st & _ & _ & _ & _ & _ & ->).
  apply rounded_is_finite.
Qed.

(** ** Full coverage, no coverage, and finiteness *)

Lemma covered_blocks_all_hit bs : all_hit bs -> covered_blocks bs = bs.
Proof.
  unfold all_hit, covered_blocks. induction bs as [|b bs IH]; intros H;
    [reflexivity|].
  simpl. unfold is_covered at 1.
  rewrite (proj2 (Z.ltb_lt 0 (Count b))) by (apply H; now left).
  f_equal. apply IH. intros b' Hb'. apply H. now right.
Qed.

Lemma covered_blocks_none_hit bs : none_hit bs -> covered_blocks bs = [].
Proof.
  unfold none_hit, covered_blocks. induction bs as [|b bs IH]; intros H;
    [reflexivity|].
  simpl. unfold is_covered at 1.
  rewrite (proj2 (Z.ltb_ge 0 (Count b))) by (apply H; now left).
  apply IH. intros b' Hb'. apply H. now right.
Qed.

(** X15: for a key that has blocks and a statement total that fits
    [int], the ratio is exactly [1.0] when every block accumulated for
    the key was hit and the total is not zero, and exactly [0.0] when
    none was hit. *)
Theorem group_ratio_exact_cases (items : list Coverage) (groups : list ParseGroup)
    (n k : string) :
  let bs := acc_blocks items groups n k in
  let entry := inner (fst (GroupCoverage items groups)) n !! k in
  bs <> [] -> 0 <= sumZ NumStmt bs < 2 ^ 63 ->
  (all_hit bs -> sumZ NumStmt bs <> 0 -> entry = Some GoFloat.one) /\
  (none_hit bs -> entry = Some GoFloat.zero).
Proof.
  intros bs entry Hne Hfit. subst entry. rewrite GroupCoverage_entry. fold bs.
  unfold bucket_entry. destruct bs as [|b bs'] eqn:E; [congruence|].
  rewrite <- E in *. clear E. split.
  - intros Hall Hnz. rewrite (covered_blocks_all_hit bs Hall).
    rewrite wrap_small by (unfold GoInt.in_range, GoInt.half; lia).
    f_equal. apply ratio_self. lia.
  - intros Hnone. rewrite (covered_blocks_none_hit bs Hnone). cbn [sumZ fold_right].
    rewrite wrap_0, wrap_small by (unfold GoInt.in_range, GoInt.half; lia).
    f_equal. apply ratio_zero. lia.
Qed.

Lemma group_ratio_exact_cases_witness :
  let bs := acc_blocks two_records [by_file] "file" "example.com/org/repo/a.go" in
  let entry := inner (fst (GroupCoverage two_records [by_file])) "file"
                 !! "example.com/org/repo/a.go"%string in
  (all_hit bs -> sumZ NumStmt bs <> 0 -> entry = Some GoFloat.one) /\
  (none_hit bs -> entry = Some GoFloat.zero).
Proof.
  apply (group_ratio_exact_cases two_records [by_file] "file"
           "example.com/org/repo/a.go").
  - vm_compute. discriminate.
  - vm_compute. split; [discriminate | reflexivity].
Defined.

(** X16: with totals that fit [int], both percentages of the breakdown
    are exactly [1.0] when every block was hit (and the total in question
    is not zero), and exactly [0.0] when no block was hit. *)
Theorem breakdown_exact_cases (items : list Coverage) :
  let bs := all_blocks items in
  let r := fst (GetTotalCoverageBreakdown items) in
  0 <= sumZ block_lines bs < 2 ^ 63 -> 0 <= sumZ NumStmt bs < 2 ^ 63 ->
  (all_hit bs ->
     (sumZ block_lines bs <> 0 -> PercentByLines r = GoFloat.one) /\
     (sumZ NumStmt bs <> 0 -> PercentByStatements r = GoFloat.one)) /\
  (none_hit bs ->
     PercentByLines r = GoFloat.zero /\ PercentByStatements r = GoFloat.zero).
Proof.
  intros bs r Hl Hs. subst r.
  destruct (breakdown_fields items) as ((El & Ecl & Es & Ecs) & -> & ->).
  rewrite El, Ecl, Es, Ecs. fold bs.
  rewrite !(wrap_small (sumZ _ bs)) by (unfold GoInt.in_range, GoInt.half; lia).
  split.
  - intros Hall. rewrite (covered_blocks_all_hit bs Hall).
    rewrite !wrap_small by (unfold GoInt.in_range, GoInt.half; lia).
    split; intros Hnz; apply ratio_self; lia.
  - intros Hnone. rewrite (covered_blocks_none_hit bs Hnone). cbn [sumZ fold_right].
    rewrite wrap_0. split; apply ratio_zero; lia.
Qed.

Lemma breakdown_exact_cases_witness :
  let bs := all_blocks [record_of "a.go" [block_of 3 2; block_of 4 1]] in
  let r := fst (GetTotalCoverageBreakdown
                  [record_of "a.go" [block_of 3 2; block_of 4 1]]) in
  (all_hit bs ->
     (sumZ block_lines bs <> 0 -> PercentByLines r = GoFloat.one) /\
     (sumZ NumStmt bs <> 0 -> PercentByStatements r = GoFloat.one)) /\
  (none_hit bs ->
     PercentByLines r = GoFloat.zero /\ PercentByStatements r = GoFloat.zero).
Proof.
  apply (breakdown_exact_cases [record_of "a.go" [block_of 3 2; block_of 4 1]]).
  - vm_compute. split; [discriminate | reflexivity].
  - vm_compute. split; [discriminate | reflexivity].
Defined.

(** X17: whatever the input, overflowing counters included, every ratio
    of every bucket and both percentages of the breakdown are finite
    numbers: neither aggregator produces a NaN or an infinity. *)
Theorem aggregators_give_finite_numbers (items : list Coverage)
    (groups : list ParseGroup) :
  (forall n bucket k r,
     fst (GroupCoverage items groups) !! n = Some bucket ->
     bucket !! k = Some r -> is_finite r = true) /\
  is_finite (PercentByLines (fst (GetTotalCoverageBreakdown items))) = true /\
  is_finite (PercentByStatements (fst (GetTotalCoverageBreakdown items))) = true.
Proof.
  split.
  - intros n bucket k r Hb Hk.
    rewrite (GroupCoverage_bucket _ _ _ _ k Hb) in Hk.
    apply bucket_entry_Some in Hk as [_ ->].
    apply ratio_is_finite; apply wrap_in_range.
  - destruct (breakdown_fields items) as ((El & Ecl & Es & Ecs) & -> & ->).
    rewrite El, Ecl, Es, Ecs. split; apply ratio_is_finite; apply wrap_in_range.
Qed.

(** ** What the aggregators read of a record *)

Lemma covered_blocks_same_measure bs bs' :
  Forall2 same_measure bs bs' ->
  Forall2 same_measure (covered_blocks bs) (covered_blocks bs').
Proof.
  unfold covered_blocks. induction 1 as [|b b' bs bs' (Hn & Hl & Hc) _ IH]; simpl.
  - constructor.
  - rewrite Hc. destruct (is_covered b') eqn:E; [|exact IH].
    constructor; [|exact IH]. unfold same_measure. rewrite E. auto.
Qed.

Lemma sumZ_same_measure bs bs' :
  Forall2 same_measure bs bs' ->
  sumZ NumStmt bs = sumZ NumStmt bs' /\ sumZ block_lines bs = sumZ block_lines bs'.
Proof.
  induction 1 as [|b b' bs bs' (Hn & Hl & Hc) _ [IHn IHl]]; simpl; [auto|].
  unfold block_lines at 1 3. lia.
Qed.

Lemma bucket_entry_same_measure bs bs' :
  Forall2 same_measure bs bs' -> bucket_entry bs = bucket_entry bs'.
Proof.
  intros H. unfold bucket_entry.
  destruct (sumZ_same_measure _ _ H) as [-> _].
  destruct (sumZ_same_measure _ _ (covered_blocks_same_measure _ _ H)) as [-> _].
  destruct H; reflexivity.
Qed.

Lemma key_blocks_same_measure group k items items' :
  Forall2 same_file_and_measure items items' ->
  Forall2 same_measure (key_blocks group k items) (key_blocks group k items').
Proof.
  unfold key_blocks. induction 1 as [|c c' items items' [Hf Hb] _ IH]; simpl.
  - constructor.
  - rewrite Hf. destruct (decide _); [now apply Forall2_app | exact IH].
Qed.

Lemma all_blocks_same_measure items items' :
  Forall2 same_file_and_measure items items' ->
  Forall2 same_measure (all_blocks items) (all_blocks items').
Proof.
  unfold all_blocks. induction 1 as [|c c' items items' [Hf Hb] _ IH]; simpl.
  - constructor.
  - now apply Forall2_app.
Qed.

(** X8: both aggregators read of a record its file name and, of each
    block, the statement count, the line span and whether the count is
    positive: the host, owner, repository and path that [Parse] extracted,
    the columns, and how often a block was hit beyond once play no part in
    either result. *)
Theorem aggregators_read_measures_only (items items' : list Coverage)
    (groups : list ParseGroup) :
  Forall2 same_file_and_measure items items' ->
  GroupCoverage items groups = GroupCoverage items' groups /\
  GetTotalCoverageBreakdown items = GetTotalCoverageBreakdown items'.
Proof.
  intros H. split.
  - apply GroupCoverage_ext; [tauto|].
    intros n k. apply bucket_entry_same_measure. unfold acc_blocks.
    induction groups as [|g groups IH]; simpl; [constructor|].
    apply Forall2_app; [|exact IH].
    destruct (decide _); [now apply key_blocks_same_measure | constructor].
  - pose proof (all_blocks_same_measure _ _ H) as Hb.
    destruct (sumZ_same_measure _ _ Hb) as [En El].
    destruct (sumZ_same_measure _ _ (covered_blocks_same_measure _ _ Hb)) as [Ecn Ecl].
    destruct (breakdown_fields items) as ((Hl & Hcl & Hs & Hcs) & Hpl & Hps).
    destruct (breakdown_fields items') as ((Hl' & Hcl' & Hs' & Hcs') & Hpl' & Hps').
    assert (E : fst (GetTotalCoverageBreakdown items)
                = fst (GetTotalCoverageBreakdown items')).
    { apply breakdown_eq.
      - now rewrite Hcl, Hcl', Ecl.
      - now rewrite Hl, Hl', El.
      - now rewrite Hpl, Hpl', Hcl, Hcl', Hl, Hl', Ecl, El.
      - now rewrite Hcs, Hcs', Ecn.
      - now rewrite Hs, Hs', En.
      - now rewrite Hps, Hps', Hcs, Hcs', Hs, Hs', Ecn, En. }
    unfold GetTotalCoverageBreakdown in *. cbn [fst] in E. now rewrite E.
Qed.

Lemma aggregators_read_measures_only_witness :
  GroupCoverage two_records [by_file]
  = GroupCoverage
      [ {| FileName := "example.com/org/repo/a.go"; Host := ""; Owner := "";
           Repo := ""; Path := "";
           Blocks := [ {| StartLine := 7; StartCol := 3; EndLine := 7; EndCol := 9;
                          NumStmt := 1; Count := 40 |} ] |};
        {| FileName := "example.com/org/repo/b.go"; Host := "h"; Owner := "o";
           Repo := "r"; Path := "p"; Blocks := [block_of 1 0] |} ]
      [by_file] /\
  GetTotalCoverageBreakdown two_records
  = GetTotalCoverageBreakdown
      [ {| FileName := "example.com/org/repo/a.go"; Host := ""; Owner := "";
           Repo := ""; Path := "";
           Blocks := [ {| StartLine := 7; StartCol := 3; EndLine := 7; EndCol := 9;
                          NumStmt := 1; Count := 40 |} ] |};
        {| FileName := "example.com/org/repo/b.go"; Host := "h"; Owner := "o";
           Repo := "r"; Path := "p"; Blocks := [block_of 1 0] |} ].
Proof.
  apply (aggregators_read_measures_only two_records).
  apply Forall2_cons. split.
  { split; [reflexivity|]. apply Forall2_cons. split; [|apply Forall2_nil; exact I].
    repeat split; reflexivity. }
  apply Forall2_cons. split.
  { split; [reflexivity|]. apply Forall2_cons. split; [|apply Forall2_nil; exact I].
    repeat split; reflexivity. }
  apply Forall2_nil. exact I.
Defined.

(** ** The records [Parse] returns *)

Lemma submatches_shape s :
  (2 <= slashes s)%nat ->
  let m := FindStringSubmatch parseLineRegex s in
  no_slash (index m hostPosition) /\ no_slash (index m ownerPosition) /\
  no_slash (index m repoPosition) /\ no_newline (index m pathPosition) /\
  exists rest,
    s = index m hostPosition +:+ String slash
          (index m ownerPosition +:+ String slash rest).
Proof.
  intros H m. subst m.
  destruct (two_slashes_split s H) as (h & o & rest & -> & Hh & Ho).
  destruct (Nat.eq_0_gt_0_cases (slashes rest)) as [E|E].
  - apply slashes_zero in E.
    rewrite (FindStringSubmatch_here _ _ _ (match_here_norepo h o rest Hh Ho E)).
    cbn [index nth hostPosition ownerPosition repoPosition pathPosition].
    split; [exact Hh|]. split; [exact Ho|]. split; [reflexivity|].
    split; [apply line_prefix_no_newline|]. now exists rest.
  - destruct (slashes_split rest) as (r & p & -> & Hr & _); [lia|].
    rewrite (FindStringSubmatch_here _ _ _ (match_here_repo h o r p Hh Ho Hr)).
    cbn [index nth hostPosition ownerPosition repoPosition pathPosition].
    split; [exact Hh|]. split; [exact Ho|]. split; [exact Hr|].
    split; [apply line_prefix_no_newline|]. now exists (r +:+ String slash p).
Qed.

(** X18: every record that [Parse] returns, on any input, has a host, an
    owner and a repository without ['/'] and a path without line feed, and
    its file name begins with the host, a ['/'], the owner and a ['/']. *)
Theorem parse_records_are_split
    (TrimSpace : string -> string)
    (ParseProfilesFromReader : string -> list Profile + string)
    (coverageData : string) (cov : Coverage) :
  In cov (fst (Parse TrimSpace ParseProfilesFromReader coverageData)) ->
  no_slash (Host cov) /\ no_slash (Owner cov) /\ no_slash (Repo cov) /\
  no_newline (Path cov) /\
  exists rest,
    FileName cov = Host cov +:+ String slash (Owner cov +:+ String slash rest).
Proof.
  unfold Parse.
  destruct (ParseProfilesFromReader (TrimSpace coverageData)) as [profiles|err];
    [|intros []].
  destruct (length profiles =? 0)%nat; [intros []|].
  destruct (parse_profiles_error profiles []) as [Hiff Hnil].
  destruct (snd (parse_profiles profiles [])) as [e|] eqn:Es.
  - rewrite Hnil by discriminate. intros [].
  - pose proof (proj1 Hiff eq_refl) as Hall.
    rewrite (parse_profiles_all profiles [] Hall). cbn [fst app].
    intros Hin. apply in_map_iff in Hin as (p & <- & Hp).
    rewrite Forall_forall in Hall. apply list_elem_of_In in Hp.
    exact (submatches_shape _ (Hall p Hp)).
Qed.

Lemma parse_records_are_split_witness :
  let cov := coverage_of_profile {| ProfileFileName := "github.com/org/repo/a.go";
                                    ProfileBlocks := [block_of 1 1] |} in
  no_slash (Host cov) /\ no_slash (Owner cov) /\ no_slash (Repo cov) /\
  no_newline (Path cov) /\
  exists rest,
    FileName cov = Host cov +:+ String slash (Owner cov +:+ String slash rest).
Proof.
  apply (parse_records_are_split trim_blanks (profiles_reader two_profiles)
           "mode: set").
  left. reflexivity.
Defined.
